(** * The analytics event bus of [AnalyticsProvider.tsx]

    A shallow embedding of the module-scope dispatcher of
    [packages/hydrogen/src/analytics-manager/AnalyticsProvider.tsx]
    (the [subscribers] table, the [registers] record, the
    [waitForReadyQueue] and the functions [areRegistersReady], [subscribe],
    [publish], [publishEvent], [register]) and of the context hook
    [useAnalyticsProvider].

    Modelling choices.
    - A JavaScript [Map] iterates in the order in which its keys were first
      inserted, and [Map.prototype.set] on a key that is present replaces the
      value where it stands.  Both matter here, so a [Map] is an association
      list with exactly that [set].
    - [registers] is a plain object used as a dictionary of booleans.  Its
      own properties are a [gmap string bool]; what it inherits from
      [Object.prototype] shows in two places, both modelled: the method
      [registers.hasOwnProperty] is shadowed once a key of that name is
      stored, and an assignment to [__proto__], when that is not an own
      property, goes to the inherited setter, which ignores a boolean.
    - The module-scope state is threaded explicitly through a small
      state-and-exception monad; [try]/[catch] is a combinator of that monad.
    - A subscriber callback is an external collaborator: the model records
      that it was called, with which payload, and whether it returned or
      threw.  What is written to [console.error] is recorded in the same
      chronological trace.  Callbacks do not call back into the dispatcher. *)

From stdpp Require Import gmap strings list fin_maps.

(** ** JavaScript [Map] *)

Module JsMap.
Abbreviation t K V := (list (K * V)) (only parsing).

Section JsMap.
Context {K V : Type} `{EqDecision K}.

Definition empty : list (K * V) := [].

Fixpoint get (k : K) (m : t K V) : option V :=
  match m with
  | [] => None
  | (k', v) :: m' => if decide (k = k') then Some v else get k m'
  end.

Definition has (k : K) (m : t K V) : bool :=
  match get k m with Some _ => true | None => false end.

(** [m.set(k, v)]: an existing key keeps its position, a new key goes last. *)
Fixpoint set (k : K) (v : V) (m : t K V) : t K V :=
  match m with
  | [] => [(k, v)]
  | (k', v') :: m' =>
      if decide (k = k') then (k, v) :: m' else (k', v') :: set k v m'
  end.

Definition size (m : t K V) : nat := length m.

Definition clear (m : t K V) : t K V := [].

Definition keys (m : t K V) : list K := m.*1.

Definition values (m : t K V) : list V := m.*2.
End JsMap.
End JsMap.

(** ** Values, callbacks and observable effects *)

(** What a [throw] carries: an [Error] object (of which only [message] is
    read) or any other value. *)
Inductive Thrown :=
  | ErrorObject (message : string)
  | OtherValue (value : string).

Inductive Outcome :=
  | Returns
  | Raises (error : Thrown).

(** The second argument of [console.error]. *)
Inductive ConsoleArg :=
  | ArgMessage (message : string)
  | ArgValue (value : string).

(** How a call ends: it returns a value, or an exception escapes it. *)
Inductive Completion (A : Type) :=
  | Normal (a : A)
  | Abrupt (error : Thrown).
Arguments Normal {A} a.
Arguments Abrupt {A} error.

(** What a context can hold at run time. *)
Inductive JsValue (A : Type) :=
  | Undefined
  | Null
  | Object (object : A).
Arguments Undefined {A}.
Arguments Null {A}.
Arguments Object {A} object.

(** A React context: [createContext(value)] fixes its default value. *)
Record Context (A : Type) := { defaultValue : JsValue A }.
Arguments defaultValue {A} _.

Definition createContext {A} (value : JsValue A) : Context A :=
  {| defaultValue := value |}.

(** [useContext]: a component sees the value of the nearest enclosing
    provider of the context, and the context's default value when there is
    none.  [providers] lists the values of the enclosing providers, nearest
    first. *)
Definition useContext {A} (context : Context A) (providers : list (JsValue A))
    : JsValue A :=
  match providers with
  | value :: _ => value
  | [] => defaultValue context
  end.

(** ** The [registers] object *)

(** [registers[key] = value].  An own property is updated.  A property
    that is not yet an own one is created, except [__proto__]: that name
    reaches the setter [Object.prototype] has for it, which does nothing
    with a value that is neither an object nor [null]. *)
Definition assign (key : string) (value : bool)
    (registers : gmap string bool) : gmap string bool :=
  match registers !! key with
  | Some _ => <[key := value]> registers
  | None =>
      if decide (key = "__proto__") then registers
      else <[key := value]> registers
  end.

Section Dispatcher.
Variable Payload : Type.

(** A subscriber callback: its identity as a closure, the text
    [callback.toString()] yields, and what calling it does. *)
Record Callback := {
  cb_ref : nat;
  cb_toString : string;
  cb_call : Payload → Outcome
}.

Inductive Effect :=
  | Invoked (callback : Callback) (payload : Payload)
  | ConsoleError (label : string) (arg : ConsoleArg).

(** The module-scope state, and the trace of effects so far. *)
Record World := {
  subscribers : JsMap.t string (JsMap.t string Callback);
  registers : gmap string bool;
  waitForReadyQueue : JsMap.t string Payload;
  trace : list Effect
}.

Definition initial_world : World :=
  {| subscribers := JsMap.empty; registers := ∅;
     waitForReadyQueue := JsMap.empty; trace := [] |}.

Definition set_subscribers (s : JsMap.t string (JsMap.t string Callback))
    (w : World) : World :=
  {| subscribers := s; registers := registers w;
     waitForReadyQueue := waitForReadyQueue w; trace := trace w |}.

Definition set_registers (r : gmap string bool) (w : World) : World :=
  {| subscribers := subscribers w; registers := r;
     waitForReadyQueue := waitForReadyQueue w; trace := trace w |}.

Definition set_waitForReadyQueue (q : JsMap.t string Payload)
    (w : World) : World :=
  {| subscribers := subscribers w; registers := registers w;
     waitForReadyQueue := q; trace := trace w |}.

Definition emit (e : Effect) (w : World) : World :=
  {| subscribers := subscribers w; registers := registers w;
     waitForReadyQueue := waitForReadyQueue w; trace := trace w ++ [e] |}.

(** ** The state-and-exception monad *)

Definition M (A : Type) : Type := World → Completion A * World.

Definition ret {A} (a : A) : M A := λ w, (Normal a, w).

Definition bind {A B} (m : M A) (f : A → M B) : M B :=
  λ w, match m w with
       | (Normal a, w') => f a w'
       | (Abrupt e, w') => (Abrupt e, w')
       end.

Definition throw {A} (e : Thrown) : M A := λ w, (Abrupt e, w).

Definition try_catch {A} (body : M A) (handler : Thrown → M A) : M A :=
  λ w, match body w with
       | (Normal a, w') => (Normal a, w')
       | (Abrupt e, w') => handler e w'
       end.

Definition gets {A} (f : World → A) : M A := λ w, (Normal (f w), w).

Definition modify (f : World → World) : M unit := λ w, (Normal tt, f w).

Definition when (b : bool) (m : M unit) : M unit :=
  if b then m else ret tt.

Definition exec {A} (m : M A) (w : World) : World := (m w).2.

Definition completion {A} (m : M A) (w : World) : Completion A := (m w).1.

Notation "x <- m ;; k" := (bind m (λ x, k))
  (at level 100, m at next level, right associativity).
Notation "m ;;; k" := (bind m (λ _, k))
  (at level 100, right associativity).

(** [m.forEach((value, key) => body)] *)
Fixpoint forEach {V} (body : V → string → M unit)
    (m : JsMap.t string V) : M unit :=
  match m with
  | [] => ret tt
  | (k, v) :: m' => body v k ;;; forEach body m'
  end.

(** Calling a callback: the call is observed, then it returns or throws. *)
Definition call (callback : Callback) (payload : Payload) : M unit :=
  modify (emit (Invoked callback payload)) ;;;
  match cb_call callback payload with
  | Returns => ret tt
  | Raises e => throw e
  end.

Definition console_error (label : string) (arg : ConsoleArg) : M unit :=
  modify (emit (ConsoleError label arg)).

(** ** The dispatcher *)

Definition areRegistersReady_of (registers : gmap string bool) : bool :=
  foldl (λ ready key,
           match registers !! key with
           | Some true => ready
           | _ => false
           end)
        true (map_to_list registers).*1.

Definition areRegistersReady : M bool :=
  gets (λ w, areRegistersReady_of (registers w)).

(** The inner [Map] is updated in place in the source; writing it back under
    its key, which is present, leaves the outer [Map] in the same order. *)
Definition subscribe (event : string) (callback : Callback) : M unit :=
  has <- gets (λ w, JsMap.has event (subscribers w)) ;;
  when (negb has)
    (modify (λ w, set_subscribers
                    (JsMap.set event JsMap.empty (subscribers w)) w)) ;;;
  inner <- gets (λ w, JsMap.get event (subscribers w)) ;;
  match inner with
  | Some callbacks =>
      modify (λ w, set_subscribers
                     (JsMap.set event
                        (JsMap.set (cb_toString callback) callback callbacks)
                        (subscribers w)) w)
  | None => ret tt
  end.

Definition publishEvent (event : string) (payload : Payload) : M unit :=
  callbacks <- gets (λ w, default JsMap.empty
                             (JsMap.get event (subscribers w))) ;;
  forEach (λ callback _,
             try_catch (call callback payload)
               (λ error,
                  match error with
                  | ErrorObject message =>
                      console_error "Analytics publish error"
                        (ArgMessage message)
                  | OtherValue value =>
                      console_error "Analytics publish error"
                        (ArgValue value)
                  end))
          callbacks.

Definition publish (event : string) (payload : Payload) : M unit :=
  isReady <- areRegistersReady ;;
  if negb isReady then
    modify (λ w, set_waitForReadyQueue
                   (JsMap.set event payload (waitForReadyQueue w)) w)
  else publishEvent event payload.

(** The object [register] returns. *)
Record Registration := { ready : M unit }.

(** [registers.hasOwnProperty(key)].  The method is the inherited one
    unless [registers] has an own property called [hasOwnProperty]; that
    one holds a boolean, and calling it is a [TypeError]. *)
Definition registers_hasOwnProperty (key : string) : M bool :=
  own <- gets (λ w, registers w !! "hasOwnProperty") ;;
  match own with
  | Some _ =>
      throw (ErrorObject "registers.hasOwnProperty is not a function")
  | None => gets (λ w, bool_decide (is_Some (registers w !! key)))
  end.

Definition ready_of (key : string) : M unit :=
  modify (λ w, set_registers (assign key true (registers w)) w) ;;;
  isReady <- areRegistersReady ;;
  size <- gets (λ w, JsMap.size (waitForReadyQueue w)) ;;
  when (isReady && bool_decide (0 < size))
    (queue <- gets waitForReadyQueue ;;
     forEach (λ queuePayload queueEvent,
                publishEvent queueEvent queuePayload) queue ;;;
     modify (λ w, set_waitForReadyQueue
                    (JsMap.clear (waitForReadyQueue w)) w)).

Definition register (key : string) : M Registration :=
  hasOwn <- registers_hasOwnProperty key ;;
  when (negb hasOwn)
    (modify (λ w, set_registers (assign key false (registers w)) w)) ;;;
  ret {| ready := ready_of key |}.

(** A run of publishes, one after the other. *)
Fixpoint publish_all (writes : list (string * Payload)) : M unit :=
  match writes with
  | [] => ret tt
  | (event, payload) :: writes' =>
      publish event payload ;;; publish_all writes'
  end.

(** ** What can be observed *)

(** The callbacks table of an event type, and the subscribers in it. *)
Definition callbacks_of (event : string) (w : World)
    : JsMap.t string Callback :=
  default JsMap.empty (JsMap.get event (subscribers w)).

Definition subscribers_of (event : string) (w : World) : list Callback :=
  JsMap.values (callbacks_of event w).

Definition console_arg (error : Thrown) : ConsoleArg :=
  match error with
  | ErrorObject message => ArgMessage message
  | OtherValue value => ArgValue value
  end.

(** The effects of handing [payload] to one subscriber: the call itself and,
    when it throws, the line logged for it. *)
Definition delivery (payload : Payload) (callback : Callback) : list Effect :=
  Invoked callback payload ::
  match cb_call callback payload with
  | Returns => []
  | Raises error =>
      [ConsoleError "Analytics publish error" (console_arg error)]
  end.

Definition deliveries (payload : Payload) (callbacks : list Callback)
    : list Effect :=
  callbacks ≫= delivery payload.

(** The effects of flushing a pending queue, entry by entry. *)
Definition flush_trace (w : World) (queue : JsMap.t string Payload)
    : list Effect :=
  queue ≫= λ entry, deliveries entry.2 (subscribers_of entry.1 w).

(** In a trace, [first] is called with [payload] before [second] is. *)
Definition called_before (payload : Payload) (first second : Callback)
    (effects : list Effect) : Prop :=
  ∃ i j, i < j
         ∧ effects !! i = Some (Invoked first payload)
         ∧ effects !! j = Some (Invoked second payload).

Definition append_trace (effects : list Effect) (w : World) : World :=
  {| subscribers := subscribers w; registers := registers w;
     waitForReadyQueue := waitForReadyQueue w;
     trace := trace w ++ effects |}.

(** [key] is registered, not ready, and the only such key. *)
Definition last_not_ready (key : string) (w : World) : Prop :=
  registers w !! key = Some false ∧
  ∀ key', key' ≠ key → registers w !! key' ≠ Some false.

(** The event types of a run of writes in the order of their first write,
    leaving out those in [seen]. *)
Fixpoint first_writes (seen : list string) (events : list string)
    : list string :=
  match events with
  | [] => []
  | event :: events' =>
      if decide (event ∈ seen) then first_writes seen events'
      else event :: first_writes (seen ++ [event]) events'
  end.

(** The payload last written for [event] in a run of writes, [pending] when
    the run has none. *)
Fixpoint latest (event : string) (writes : list (string * Payload))
    (pending : option Payload) : option Payload :=
  match writes with
  | [] => pending
  | (event', payload) :: writes' =>
      latest event writes'
        (if decide (event' = event) then Some payload else pending)
  end.

(** A run of [waitForReadyQueue.set] calls. *)
Definition write_all (writes : list (string * Payload))
    (queue : JsMap.t string Payload) : JsMap.t string Payload :=
  foldl (λ pending entry, JsMap.set entry.1 entry.2 pending) queue writes.

(** ** The states the dispatcher can be in *)

Inductive step : World → World → Prop :=
  | step_subscribe event callback w :
      step w (exec (subscribe event callback) w)
  | step_publish event payload w :
      step w (exec (publish event payload) w)
  | step_register key w :
      step w (exec (register key) w)
  | step_ready key w0 registration w :
      completion (register key) w0 = Normal registration →
      is_Some (registers w !! key) →
      step w (exec (ready registration) w).

Definition reachable (w : World) : Prop := rtc step initial_world w.

Record wf (w : World) : Prop := {
  wf_subscribers : NoDup (JsMap.keys (subscribers w));
  wf_callbacks : ∀ event callbacks,
    (event, callbacks) ∈ subscribers w →
    NoDup (JsMap.keys callbacks) ∧
    ∀ text callback, (text, callback) ∈ callbacks →
                     cb_toString callback = text;
  wf_queue : NoDup (JsMap.keys (waitForReadyQueue w));
  wf_ready_empty :
    areRegistersReady_of (registers w) = true → waitForReadyQueue w = []
}.

(** ** The React context and its hook *)

Variables Cart Shop : Type.

(** The fields of the context value this model follows ([setCarts], a React
    state setter, is left out). *)
Record AnalyticsContextValue := {
  canTrack : unit → bool;
  cart : option Cart;
  customPayload : gmap string string;
  prevCart : option Cart;
  ctx_publish : string → Payload → M unit;
  shop : option Shop;
  ctx_subscribe : string → Callback → M unit;
  ctx_register : string → M Registration
}.

Definition defaultAnalyticsContext : AnalyticsContextValue :=
  {| canTrack := λ _, false;
     cart := None;
     customPayload := ∅;
     prevCart := None;
     ctx_publish := λ _ _, ret tt;
     shop := None;
     ctx_subscribe := λ _ _, ret tt;
     ctx_register := λ _, ret {| ready := ret tt |} |}.

Definition AnalyticsContext : Context AnalyticsContextValue :=
  createContext (Object defaultAnalyticsContext).

(** The value [AnalyticsProvider] hands to its [AnalyticsContext.Provider]. *)
Definition provider_value (track : unit → bool) (current previous : option Cart)
    (custom : gmap string string) (resolved : option Shop)
    : JsValue AnalyticsContextValue :=
  Object {| canTrack := track;
            cart := current;
            customPayload := custom;
            prevCart := previous;
            ctx_publish := publish;
            shop := resolved;
            ctx_subscribe := subscribe;
            ctx_register := register |}.

Definition useAnalyticsProvider
    (providers : list (JsValue AnalyticsContextValue))
    : Completion AnalyticsContextValue :=
  match useContext AnalyticsContext providers with
  | Object analyticsContext => Normal analyticsContext
  | Undefined | Null =>
      Abrupt (ErrorObject
        "'useAnalyticsProvider()' must be a descendent of <AnalyticsProvider/>")
  end.

End Dispatcher.

Arguments cb_ref {Payload} _.
Arguments cb_toString {Payload} _.
Arguments cb_call {Payload} _ _.
Arguments Invoked {Payload} callback payload.
Arguments ConsoleError {Payload} label arg.
Arguments subscribers {Payload} _.
Arguments registers {Payload} _.
Arguments waitForReadyQueue {Payload} _.
Arguments trace {Payload} _.
Arguments initial_world {Payload}.
Arguments set_subscribers {Payload} s w.
Arguments set_registers {Payload} r w.
Arguments set_waitForReadyQueue {Payload} q w.
Arguments emit {Payload} e w.
Arguments ret {Payload A} a _.
Arguments bind {Payload A B} m f _.
Arguments throw {Payload A} e _.
Arguments try_catch {Payload A} body handler _.
Arguments gets {Payload A} f _.
Arguments modify {Payload} f _.
Arguments when {Payload} b m.
Arguments exec {Payload A} m w.
Arguments completion {Payload A} m w.
Arguments forEach {Payload V} body m.
Arguments call {Payload} callback payload.
Arguments console_error {Payload} label arg.
Arguments areRegistersReady {Payload}.
Arguments subscribe {Payload} event callback.
Arguments publishEvent {Payload} event payload.
Arguments publish {Payload} event payload.
Arguments ready {Payload} _.
Arguments registers_hasOwnProperty {Payload} key.
Arguments ready_of {Payload} key.
Arguments register {Payload} key.
Arguments publish_all {Payload} writes.
Arguments callbacks_of {Payload} event w.
Arguments subscribers_of {Payload} event w.
Arguments delivery {Payload} payload callback.
Arguments deliveries {Payload} payload callbacks.
Arguments flush_trace {Payload} w queue.
Arguments append_trace {Payload} effects w.
Arguments called_before {Payload} payload first second effects.
Arguments last_not_ready {Payload} key w.
Arguments latest {Payload} event writes pending.
Arguments write_all {Payload} writes queue.
Arguments step {Payload} _ _.
Arguments step_subscribe {Payload} event callback w.
Arguments step_publish {Payload} event payload w.
Arguments step_register {Payload} key w.
Arguments step_ready {Payload} key w0 registration w _ _.
Arguments reachable {Payload} w.
Arguments wf {Payload} w.
Arguments wf_subscribers {Payload} w _.
Arguments wf_callbacks {Payload} w _.
Arguments wf_queue {Payload} w _.
Arguments wf_ready_empty {Payload} w _.
Arguments canTrack {Payload Cart Shop} _.
Arguments cart {Payload Cart Shop} _.
Arguments customPayload {Payload Cart Shop} _.
Arguments prevCart {Payload Cart Shop} _.
Arguments ctx_publish {Payload Cart Shop} _.
Arguments shop {Payload Cart Shop} _.
Arguments ctx_subscribe {Payload Cart Shop} _.
Arguments ctx_register {Payload Cart Shop} _.
Arguments defaultAnalyticsContext {Payload Cart Shop}.
Arguments AnalyticsContext {Payload Cart Shop}.
Arguments provider_value {Payload Cart Shop} track current previous custom
  resolved.
Arguments useAnalyticsProvider {Payload Cart Shop} providers.

(** ** Runs of the dispatcher

    What the module is asked to do, one call after the other.  [Ready key]
    stands for calling the [ready] of a closure that [register(key)]
    returned. *)

Section Runs.
Variable Payload : Type.

Inductive Action :=
  | Subscribe (event : string) (callback : Callback Payload)
  | Publish (event : string) (payload : Payload)
  | Register (key : string)
  | Ready (key : string).

Definition perform (action : Action) : M Payload unit :=
  match action with
  | Subscribe event callback => subscribe event callback
  | Publish event payload => publish event payload
  | Register key => bind (register key) (λ _, ret tt)
  | Ready key => ready_of key
  end.

Definition run_from (w : World Payload) (actions : list Action)
    : World Payload :=
  foldl (λ state action, exec (perform action) state) w actions.

Definition run (actions : list Action) : World Payload :=
  run_from initial_world actions.

End Runs.

Arguments Subscribe {Payload} event callback.
Arguments Publish {Payload} event payload.
Arguments Register {Payload} key.
Arguments Ready {Payload} key.
Arguments perform {Payload} action.
Arguments run_from {Payload} w actions.
Arguments run {Payload} actions.

(** ** The consent detector and the provider's tracking state *)

(** What a property of the host page holds, as the [typeof] tests of
    [shopifyCanTrack] see it: a value of the kind the test asks for, [null],
    or anything else ([undefined], or a value of another kind). *)
Inductive Slot (A : Type) :=
  | Other
  | NullValue
  | Present (value : A).
Arguments Other {A}.
Arguments NullValue {A}.
Arguments Present {A} value.

(** [typeof v === 'object'], which [null] passes. *)
Definition typeof_object {A} (v : Slot A) : bool :=
  match v with
  | Present _ | NullValue => true
  | Other => false
  end.

(** [typeof v === 'function'] *)
Definition typeof_function {A} (v : Slot A) : bool :=
  match v with
  | Present _ => true
  | NullValue | Other => false
  end.

(** [v?.field]: [undefined] when [v] is [null] or [undefined]. *)
Definition optional {A B} (v : Slot A) (field : A → Slot B) : Slot B :=
  match v with
  | Present object => field object
  | NullValue | Other => Other
  end.

Record CustomerPrivacy := { userCanBeTracked : Slot (unit → bool) }.
Record ShopifyGlobal := { customerPrivacy : Slot CustomerPrivacy }.
Record Window := { Shopify : Slot ShopifyGlobal }.

(** [window] is [None] where [typeof window] is ['undefined']. *)
Definition shopifyCanTrack (window : option Window) : bool :=
  match window with
  | None => false
  | Some host =>
      if typeof_object (Shopify host)
         && typeof_object (optional (Shopify host) customerPrivacy)
         && typeof_function
              (optional (optional (Shopify host) customerPrivacy)
                 userCanBeTracked)
      then
        match optional (optional (Shopify host) customerPrivacy)
                userCanBeTracked with
        | Present detector => detector tt
        | NullValue | Other => false
        end
      else false
  end.

(** The function the [canTrack] state of [AnalyticsProvider] holds: the
    [canTrack] prop, [shopifyCanTrack], or [() => false]. *)
Inductive TrackFn :=
  | CustomTrack (custom : unit → bool)
  | ShopifyTrack
  | NeverTrack.

Definition track (fn : TrackFn) (window : option Window) : bool :=
  match fn with
  | CustomTrack custom => custom tt
  | ShopifyTrack => shopifyCanTrack window
  | NeverTrack => false
  end.

(** The part of a mounted [AnalyticsProvider] that decides tracking: the
    [listenerSet] ref, the [consentLoaded] and [canTrack] states, and the
    number of [customerPrivacyApiLoaded] listeners it has put on the
    document. *)
Record Consent := {
  listenerSet : bool;
  consentLoaded : bool;
  canTrackState : TrackFn;
  listeners : nat
}.

(** The first render: [useRef(false)] and the two [useState] initial
    values. *)
Definition mount (customCanTrack : option (unit → bool)) : Consent :=
  {| listenerSet := false;
     consentLoaded :=
       match customCanTrack with Some _ => true | None => false end;
     canTrackState :=
       match customCanTrack with
       | Some custom => CustomTrack custom
       | None => ShopifyTrack
       end;
     listeners := 0 |}.

(** The body of the [useEffect], run with the props of the last render. *)
Definition effect (customCanTrack : option (unit → bool)) (c : Consent)
    : Consent :=
  match customCanTrack with
  | Some _ => c
  | None =>
      if listenerSet c then c
      else {| listenerSet := true;
              consentLoaded := consentLoaded c;
              canTrackState := canTrackState c;
              listeners := S (listeners c) |}
  end.

(** The listener's body, for an event whose [detail] is truthy or not. *)
Definition on_customerPrivacyApiLoaded (detail : bool) (c : Consent)
    : Consent :=
  if negb detail then
    {| listenerSet := listenerSet c; consentLoaded := false;
       canTrackState := NeverTrack; listeners := listeners c |}
  else
    {| listenerSet := listenerSet c; consentLoaded := detail;
       canTrackState := ShopifyTrack; listeners := listeners c |}.

(** What happens to a mounted provider: it renders again with some
    [canTrack] prop and its effect runs, or the document dispatches
    [customerPrivacyApiLoaded] and every listener the provider attached
    runs. *)
Inductive Happening :=
  | Rendered (customCanTrack : option (unit → bool))
  | ConsentSignal (detail : bool).

Definition happen (c : Consent) (h : Happening) : Consent :=
  match h with
  | Rendered customCanTrack => effect customCanTrack c
  | ConsentSignal detail =>
      Nat.iter (listeners c) (on_customerPrivacyApiLoaded detail) c
  end.

(** A provider's life: mounted with a prop, its effect run once, then
    whatever happens. *)
Definition provider_life (customCanTrack : option (unit → bool))
    (happenings : list Happening) : Consent :=
  foldl happen (effect customCanTrack (mount customCanTrack)) happenings.


(** ** Sample data

    Payloads are strings here.  The subscribers: one that returns, one that
    throws an [Error], and a closure with the text of the first one that
    behaves differently, and one for cart updates. *)

Module Sample.

Definition tracker : Callback string :=
  {| cb_ref := 1;
     cb_toString := "(payload) => track(payload)";
     cb_call := λ _, Returns |}.

Definition faulty : Callback string :=
  {| cb_ref := 2;
     cb_toString := "(payload) => { throw new Error('boom') }";
     cb_call := λ _, Raises (ErrorObject "boom") |}.

Definition tracker_twin : Callback string :=
  {| cb_ref := 3;
     cb_toString := "(payload) => track(payload)";
     cb_call := λ _, Raises (OtherValue "42") |}.

Definition cart_logger : Callback string :=
  {| cb_ref := 4;
     cb_toString := "(payload) => log(payload.cart)";
     cb_call := λ _, Returns |}.

(** [faulty] then [tracker] subscribed to page views, [cart_logger] to cart
    updates, one integration registered and not ready. *)
Definition waiting : World string :=
  {| subscribers :=
       [("page_viewed",
         [(cb_toString faulty, faulty); (cb_toString tracker, tracker)]);
        ("cart_updated", [(cb_toString cart_logger, cart_logger)])];
     registers := {["shopify" := false]};
     waitForReadyQueue := [];
     trace := [] |}.

(** The same with a product view pending, an event type nobody subscribed
    to. *)
Definition pending : World string :=
  {| subscribers := subscribers waiting;
     registers := registers waiting;
     waitForReadyQueue := [("product_viewed", "sku-1")];
     trace := [] |}.

(** The same subscribers with no integration registered. *)
Definition open : World string :=
  {| subscribers := subscribers waiting;
     registers := ∅;
     waitForReadyQueue := [];
     trace := [] |}.

(** [tracker_twin], then [faulty], then [tracker] subscribed to page views,
    starting from nothing. *)
Definition collided : World string :=
  exec (subscribe "page_viewed" tracker)
    (exec (subscribe "page_viewed" faulty)
       (exec (subscribe "page_viewed" tracker_twin) initial_world)).

End Sample.

(** A run from the initial state: an integration registers, a tracker
    subscribes, a page view is published and waits, the integration is
    ready.  And a state with two integrations waiting. *)

Module SampleRuns.

Definition registered : World string :=
  exec (register "shopify") initial_world.

Definition subscribed : World string :=
  exec (subscribe "page_viewed" Sample.tracker) registered.

Definition queued : World string :=
  exec (publish "page_viewed" "/a") subscribed.

Definition flushed : World string :=
  exec (ready_of "shopify") queued.

Definition script : list (Action string) :=
  [Register "shopify"; Subscribe "page_viewed" Sample.tracker;
   Publish "page_viewed" "/a"; Ready "shopify"].

Definition two_waiting : World string :=
  exec (register "ga") Sample.waiting.

End SampleRuns.


(** * Properties *)

Section DispatcherFacts.
Context {Payload : Type}.
Implicit Types (w : World Payload) (callback : Callback Payload)
  (callbacks : list (Callback Payload)) (payload : Payload)
  (effects : list (Effect Payload)) (queue : JsMap.t string Payload)
  (registration : Registration Payload).


(** ** Lemmas on [JsMap] *)

Section JsMapFacts.
Context {K V : Type} `{EqDecision K}.
Implicit Types (k : K) (v : V) (m : JsMap.t K V).

Lemma JsMap_get_set_eq k v m : JsMap.get k (JsMap.set k v m) = Some v.
Proof.
  induction m as [|[k' v'] m IH]; simpl.
  - by rewrite decide_True.
  - destruct (decide (k = k')) as [->|Hne]; simpl.
    + by rewrite decide_True.
    + by rewrite decide_False.
Qed.

Lemma JsMap_get_set_ne k k' v m :
  k ≠ k' → JsMap.get k' (JsMap.set k v m) = JsMap.get k' m.
Proof.
  intros Hne. induction m as [|[k0 v0] m IH]; simpl.
  - rewrite decide_False; [done | congruence].
  - destruct (decide (k = k0)) as [->|Hne0]; simpl.
    + rewrite !decide_False; [done | congruence | congruence].
    + by rewrite IH.
Qed.

Lemma JsMap_get_None k m : JsMap.get k m = None ↔ k ∉ JsMap.keys m.
Proof.
  unfold JsMap.keys. induction m as [|[k' v'] m IH]; simpl.
  - split; [intros _; apply not_elem_of_nil | done].
  - rewrite not_elem_of_cons. destruct (decide (k = k')) as [->|Hne].
    + split; [done | by intros [? _]].
    + rewrite IH. split; [done | by intros [_ ?]].
Qed.

Lemma JsMap_get_Some_elem k v m : JsMap.get k m = Some v → (k, v) ∈ m.
Proof.
  induction m as [|[k' v'] m IH]; simpl; [done |].
  destruct (decide (k = k')) as [->|Hne].
  - intros [= ->]. apply list_elem_of_here.
  - intros Hg. apply list_elem_of_further. auto.
Qed.

Lemma JsMap_elem_get k v m :
  NoDup (JsMap.keys m) → (k, v) ∈ m → JsMap.get k m = Some v.
Proof.
  unfold JsMap.keys. induction m as [|[k' v'] m IH]; simpl.
  - intros _ Hin. by apply elem_of_nil in Hin.
  - rewrite NoDup_cons. intros [Hk' Hnd] Hin.
    apply elem_of_cons in Hin as [[= -> ->]|Hin].
    + by rewrite decide_True.
    + rewrite decide_False; [by apply IH |].
      intros ->. apply Hk'. apply list_elem_of_fmap. by exists (k', v).
Qed.

Lemma JsMap_has_true k m : JsMap.has k m = true ↔ k ∈ JsMap.keys m.
Proof.
  unfold JsMap.has. destruct (JsMap.get k m) eqn:Hg.
  - split; [intros _ | done].
    destruct (decide (k ∈ JsMap.keys m)) as [|Hn]; [done |].
    apply JsMap_get_None in Hn. congruence.
  - split; [done |]. intros Hin. by apply JsMap_get_None in Hg.
Qed.

(** A key that is absent is added at the end. *)
Lemma JsMap_set_fresh k v m :
  k ∉ JsMap.keys m → JsMap.set k v m = m ++ [(k, v)].
Proof.
  unfold JsMap.keys. induction m as [|[k' v'] m IH]; simpl; [done |].
  rewrite not_elem_of_cons. intros [Hne Hm].
  rewrite decide_False; [| done]. by rewrite IH.
Qed.

(** A key that is present keeps its place: only its value changes. *)
Lemma JsMap_set_present k v v' m1 m2 :
  k ∉ JsMap.keys m1 →
  JsMap.set k v' (m1 ++ (k, v) :: m2) = m1 ++ (k, v') :: m2.
Proof.
  unfold JsMap.keys. induction m1 as [|[k0 v0] m1 IH]; simpl.
  - intros _. by rewrite decide_True.
  - rewrite not_elem_of_cons. intros [Hne Hm].
    rewrite decide_False; [| done]. by rewrite IH.
Qed.

Lemma JsMap_get_split k v m :
  JsMap.get k m = Some v →
  ∃ m1 m2, m = m1 ++ (k, v) :: m2 ∧ k ∉ JsMap.keys m1.
Proof.
  unfold JsMap.keys. induction m as [|[k' v'] m IH]; simpl; [done |].
  destruct (decide (k = k')) as [->|Hne].
  - intros [= ->]. exists [], m. split; [done | apply not_elem_of_nil].
  - intros Hg. destruct (IH Hg) as (m1 & m2 & -> & Hm1).
    exists ((k', v') :: m1), m2. split; [done |].
    simpl. rewrite not_elem_of_cons. done.
Qed.

Lemma JsMap_keys_set_present k v m :
  k ∈ JsMap.keys m → JsMap.keys (JsMap.set k v m) = JsMap.keys m.
Proof.
  intros Hin. destruct (JsMap.get k m) as [v0|] eqn:Hg.
  - destruct (JsMap_get_split _ _ _ Hg) as (m1 & m2 & -> & Hm1).
    rewrite JsMap_set_present; [| done].
    unfold JsMap.keys. by rewrite !fmap_app.
  - by apply JsMap_get_None in Hg.
Qed.

Lemma JsMap_keys_set_fresh k v m :
  k ∉ JsMap.keys m → JsMap.keys (JsMap.set k v m) = JsMap.keys m ++ [k].
Proof.
  intros Hn. rewrite JsMap_set_fresh; [| done].
  unfold JsMap.keys. by rewrite fmap_app.
Qed.

Lemma JsMap_size_set_present k v m :
  k ∈ JsMap.keys m → JsMap.size (JsMap.set k v m) = JsMap.size m.
Proof.
  intros Hin. unfold JsMap.size.
  rewrite <- (length_fmap fst (JsMap.set k v m)), <- (length_fmap fst m).
  f_equal. by apply JsMap_keys_set_present.
Qed.

Lemma JsMap_NoDup_set k v m :
  NoDup (JsMap.keys m) → NoDup (JsMap.keys (JsMap.set k v m)).
Proof.
  intros Hnd. destruct (decide (k ∈ JsMap.keys m)) as [Hin|Hn].
  - by rewrite JsMap_keys_set_present.
  - rewrite JsMap_keys_set_fresh; [| done].
    apply NoDup_app. split_and!; [done | | apply NoDup_singleton].
    intros x Hx Hx'. apply list_elem_of_singleton in Hx' as ->. done.
Qed.

(** Writing a key twice leaves what writing it once with the later value
    leaves. *)
Lemma JsMap_set_set k v v' m :
  JsMap.set k v' (JsMap.set k v m) = JsMap.set k v' m.
Proof.
  induction m as [|[k0 v0] m IH]; simpl.
  - by rewrite decide_True.
  - destruct (decide (k = k0)) as [->|Hne]; simpl.
    + by rewrite decide_True.
    + rewrite decide_False; [| done]. by rewrite IH.
Qed.

Lemma JsMap_filter_absent k m :
  k ∉ JsMap.keys m → filter (λ entry, entry.1 = k) m = [].
Proof.
  unfold JsMap.keys. induction m as [|[k' v'] m IH]; [done |].
  rewrite fmap_cons, not_elem_of_cons. intros [Hne Hm].
  rewrite filter_cons_False; [by apply IH |].
  simpl. intros Heq. apply Hne. by rewrite Heq.
Qed.

(** With distinct keys, the entries under a key are the one [get] finds. *)
Lemma JsMap_filter_key k v m :
  NoDup (JsMap.keys m) → JsMap.get k m = Some v →
  filter (λ entry, entry.1 = k) m = [(k, v)].
Proof.
  unfold JsMap.keys. induction m as [|[k' v'] m IH]; [done |].
  rewrite fmap_cons, NoDup_cons. cbn [JsMap.get fst]. intros [Hk' Hnd].
  destruct (decide (k = k')) as [->|Hne].
  - intros [= ->]. rewrite filter_cons_True; [| done]. f_equal.
    by apply JsMap_filter_absent.
  - intros Hg. rewrite filter_cons_False; [by apply IH |].
    simpl. intros Heq. apply Hne. by rewrite Heq.
Qed.

End JsMapFacts.

(** ** The readiness gate *)

Lemma gate_fold_true (registers : gmap string bool) (keys : list string)
    (start : bool) :
  foldl (λ ready key,
           match registers !! key with
           | Some true => ready
           | _ => false
           end) start keys = true
  ↔ start = true ∧ ∀ key, key ∈ keys → registers !! key = Some true.
Proof.
  revert start. induction keys as [|key keys IH]; intros start; simpl.
  - split; [intros ->; split; [done |] | by intros [-> _]].
    intros key Hin. by apply elem_of_nil in Hin.
  - rewrite IH. split.
    + intros [Hstart Hall].
      destruct (registers !! key) as [[|]|] eqn:Hkey; try done.
      split; [done |]. intros key' Hin.
      apply elem_of_cons in Hin as [->|Hin]; auto.
    + intros [-> Hall]. split.
      * rewrite (Hall key); [done | apply list_elem_of_here].
      * intros key' Hin. apply Hall. by apply list_elem_of_further.
Qed.

(** The gate is open exactly when no registered key has a false flag. *)
Lemma areRegistersReady_of_true (registers : gmap string bool) :
  areRegistersReady_of registers = true
  ↔ ∀ key, registers !! key ≠ Some false.
Proof.
  unfold areRegistersReady_of. rewrite gate_fold_true. split.
  - intros [_ Hall] key Hkey.
    assert (key ∈ (map_to_list registers).*1) as Hin.
    { apply list_elem_of_fmap. exists (key, false).
      split; [done |]. by apply elem_of_map_to_list. }
    apply Hall in Hin. congruence.
  - intros Hall. split; [done |]. intros key Hin.
    apply list_elem_of_fmap in Hin as ([key' flag] & -> & Hin).
    apply elem_of_map_to_list in Hin. simpl.
    destruct flag; [done |]. by apply Hall in Hin.
Qed.

Lemma areRegistersReady_of_false (registers : gmap string bool) :
  areRegistersReady_of registers = false
  ↔ ∃ key, registers !! key = Some false.
Proof.
  split.
  - intros Hgate.
    destruct (decide (map_Forall (λ _ flag, flag = true) registers))
      as [Hall|Hsome].
    + assert (areRegistersReady_of registers = true) as Hopen; [| congruence].
      apply areRegistersReady_of_true. intros key Hkey.
      by apply Hall in Hkey.
    + apply map_not_Forall in Hsome; [| apply _].
      destruct Hsome as (key & flag & Hkey & Hflag).
      exists key. by destruct flag.
  - intros [key Hkey].
    destruct (areRegistersReady_of registers) eqn:Hgate; [| done].
    rewrite areRegistersReady_of_true in Hgate. by apply Hgate in Hkey.
Qed.

Lemma areRegistersReady_of_empty : areRegistersReady_of ∅ = true.
Proof. apply areRegistersReady_of_true. intros key. by rewrite lookup_empty. Qed.

(** Assignments to [registers]. *)
Lemma assign_own key value (registers : gmap string bool) :
  is_Some (registers !! key) →
  assign key value registers = <[key := value]> registers.
Proof. unfold assign. by intros [flag ->]. Qed.

Lemma assign_ordinary key value (registers : gmap string bool) :
  key ≠ "__proto__" →
  assign key value registers = <[key := value]> registers.
Proof.
  intros Hne. unfold assign. destruct (registers !! key); [done |].
  by rewrite decide_False.
Qed.

Lemma assign_cases key value (registers : gmap string bool) :
  assign key value registers = <[key := value]> registers
  ∨ (key = "__proto__" ∧ registers !! key = None
     ∧ assign key value registers = registers).
Proof.
  unfold assign. destruct (registers !! key) eqn:Hkey; [by left |].
  case_decide; [by right | by left].
Qed.

Lemma assign_assign key value value' (registers : gmap string bool) :
  assign key value' (assign key value registers)
  = assign key value' registers.
Proof.
  unfold assign. destruct (registers !! key) eqn:Hkey.
  - by rewrite lookup_insert_eq, insert_insert_eq.
  - case_decide; [by rewrite Hkey |].
    by rewrite lookup_insert_eq, insert_insert_eq.
Qed.

(** Marking the last not-ready key opens the gate. *)
Lemma last_not_ready_opens key w :
  last_not_ready key w →
  areRegistersReady_of (<[key := true]> (registers w)) = true.
Proof.
  intros [_ Hothers]. apply areRegistersReady_of_true. intros key'.
  destruct (decide (key = key')) as [<-|Hne].
  - by rewrite lookup_insert_eq.
  - rewrite lookup_insert_ne; [| done]. by apply Hothers.
Qed.

Lemma last_not_ready_singleton key w :
  registers w = {[key := false]} → last_not_ready key w.
Proof.
  intros Hregs. unfold last_not_ready. rewrite Hregs. split.
  - apply lookup_singleton_eq.
  - intros key' Hne. rewrite lookup_singleton_ne; [done | congruence].
Qed.

Lemma last_not_ready_closed key w :
  last_not_ready key w → areRegistersReady_of (registers w) = false.
Proof. intros [Hkey _]. apply areRegistersReady_of_false. by exists key. Qed.

(** ** What each operation computes *)

Lemma append_trace_nil w : append_trace [] w = w.
Proof. destruct w. unfold append_trace. simpl. by rewrite app_nil_r. Qed.

Lemma append_trace_app effects effects' w :
  append_trace effects' (append_trace effects w)
  = append_trace (effects ++ effects') w.
Proof. unfold append_trace. simpl. by rewrite app_assoc. Qed.

Lemma deliveries_app payload callbacks callbacks' :
  deliveries payload (callbacks ++ callbacks')
  = deliveries payload callbacks ++ deliveries payload callbacks'.
Proof. unfold deliveries. apply bind_app. Qed.

Lemma deliveries_cons payload callback callbacks :
  deliveries payload (callback :: callbacks)
  = delivery payload callback ++ deliveries payload callbacks.
Proof. done. Qed.

Lemma flush_trace_app w queue queue' :
  flush_trace w (queue ++ queue')
  = flush_trace w queue ++ flush_trace w queue'.
Proof. unfold flush_trace. apply bind_app. Qed.

Lemma flush_trace_cons w event payload queue :
  flush_trace w ((event, payload) :: queue)
  = deliveries payload (subscribers_of event w) ++ flush_trace w queue.
Proof. done. Qed.

(** One guarded call: whatever the callback does, the [try] block ends
    normally, having recorded the call and, for a throw, the logged line. *)
Lemma guarded_call_run callback payload w :
  try_catch (call callback payload)
    (λ error,
       match error with
       | ErrorObject message =>
           console_error "Analytics publish error" (ArgMessage message)
       | OtherValue value =>
           console_error "Analytics publish error" (ArgValue value)
       end) w
  = (Normal tt, append_trace (delivery payload callback) w).
Proof.
  unfold try_catch, call, bind, modify, delivery. simpl.
  destruct (cb_call callback payload) as [|[message|value]]; simpl;
    unfold console_error, modify, emit, append_trace; simpl;
    by rewrite <- ?app_assoc.
Qed.

Lemma forEach_guarded_calls payload
    (table : JsMap.t string (Callback Payload)) w :
  forEach (λ callback _,
             try_catch (call callback payload)
               (λ error,
                  match error with
                  | ErrorObject message =>
                      console_error "Analytics publish error"
                        (ArgMessage message)
                  | OtherValue value =>
                      console_error "Analytics publish error"
                        (ArgValue value)
                  end)) table w
  = (Normal tt,
     append_trace (deliveries payload (JsMap.values table)) w).
Proof.
  revert w. induction table as [|[text callback] table IH]; intros w.
  - simpl. unfold ret. by rewrite append_trace_nil.
  - cbn [forEach]. unfold bind at 1. rewrite guarded_call_run, IH.
    by rewrite append_trace_app.
Qed.

Lemma publishEvent_run event payload w :
  publishEvent event payload w
  = (Normal tt,
     append_trace (deliveries payload (subscribers_of event w)) w).
Proof.
  unfold publishEvent, bind, gets. simpl. apply forEach_guarded_calls.
Qed.

Lemma publish_run_closed event payload w :
  areRegistersReady_of (registers w) = false →
  publish event payload w
  = (Normal tt,
     set_waitForReadyQueue
       (JsMap.set event payload (waitForReadyQueue w)) w).
Proof.
  intros Hgate. unfold publish, bind, areRegistersReady, gets. simpl.
  by rewrite Hgate.
Qed.

Lemma publish_run_open event payload w :
  areRegistersReady_of (registers w) = true →
  publish event payload w
  = (Normal tt,
     append_trace (deliveries payload (subscribers_of event w)) w).
Proof.
  intros Hgate. unfold publish, bind, areRegistersReady, gets. simpl.
  rewrite Hgate. simpl. apply publishEvent_run.
Qed.

Lemma forEach_flush queue w :
  forEach (λ queuePayload queueEvent, publishEvent queueEvent queuePayload)
    queue w
  = (Normal tt, append_trace (flush_trace w queue) w).
Proof.
  revert w. induction queue as [|[event payload] queue IH]; intros w.
  - simpl. unfold ret. by rewrite append_trace_nil.
  - cbn [forEach]. unfold bind at 1. rewrite publishEvent_run, IH.
    rewrite append_trace_app. done.
Qed.

(** [ready()] when the gate stays closed or nothing is pending: only the
    flag changes. *)
Lemma ready_of_run_idle key w :
  areRegistersReady_of (assign key true (registers w)) = false
  ∨ waitForReadyQueue w = [] →
  ready_of key w
  = (Normal tt, set_registers (assign key true (registers w)) w).
Proof.
  intros Hidle. unfold ready_of, bind, modify, areRegistersReady, gets. simpl.
  destruct Hidle as [->| ->]; [done |].
  rewrite andb_comm. done.
Qed.

(** [ready()] when it opens the gate with entries pending: the flag is set,
    the queue is flushed in order, then cleared. *)
Lemma ready_of_run_flush key w :
  areRegistersReady_of (assign key true (registers w)) = true →
  ready_of key w
  = (Normal tt,
     set_waitForReadyQueue []
       (append_trace (flush_trace w (waitForReadyQueue w))
          (set_registers (assign key true (registers w)) w))).
Proof.
  intros Hgate. unfold ready_of, bind, modify, areRegistersReady, gets. simpl.
  rewrite Hgate. simpl.
  destruct (waitForReadyQueue w) as [|entry queue] eqn:Hqueue.
  - simpl. unfold ret, set_waitForReadyQueue, append_trace, set_registers.
    simpl. by rewrite app_nil_r, Hqueue.
  - rewrite bool_decide_true; [| simpl; lia]. simpl.
    unfold bind, gets. simpl. rewrite Hqueue.
    rewrite forEach_flush. done.
Qed.

Lemma register_run key w :
  register key w
  = match registers w !! "hasOwnProperty" with
    | Some _ =>
        (Abrupt (ErrorObject "registers.hasOwnProperty is not a function"),
         w)
    | None =>
        (Normal {| ready := ready_of key |},
         if registers w !! key is Some _ then w
         else set_registers (assign key false (registers w)) w)
    end.
Proof.
  unfold register, registers_hasOwnProperty, bind, gets, modify, when, ret,
    throw.
  simpl. destruct (registers w !! "hasOwnProperty") as [shadow|]; [done |].
  simpl. destruct (registers w !! key) as [flag|] eqn:Hkey.
  - rewrite bool_decide_true; [done | by eexists].
  - rewrite bool_decide_false; [done |]. by intros [flag Hflag].
Qed.

Lemma subscribe_run event callback w :
  subscribe event callback w
  = (Normal tt,
     set_subscribers
       (JsMap.set event
          (JsMap.set (cb_toString callback) callback (callbacks_of event w))
          (subscribers w)) w).
Proof.
  unfold subscribe, bind, gets, modify, when, ret, callbacks_of, JsMap.has.
  simpl. destruct (JsMap.get event (subscribers w)) as [callbacks|] eqn:Hget.
  - simpl. by rewrite Hget.
  - simpl. rewrite JsMap_get_set_eq. simpl. by rewrite JsMap_set_set.
Qed.

Lemma callbacks_of_subscribe event callback w :
  callbacks_of event (exec (subscribe event callback) w)
  = JsMap.set (cb_toString callback) callback (callbacks_of event w).
Proof.
  unfold exec. rewrite subscribe_run. unfold callbacks_of at 1. simpl.
  by rewrite JsMap_get_set_eq.
Qed.

Lemma callbacks_of_subscribe_other event event' callback w :
  event ≠ event' →
  callbacks_of event' (exec (subscribe event callback) w)
  = callbacks_of event' w.
Proof.
  intros Hne. unfold exec. rewrite subscribe_run. unfold callbacks_of. simpl.
  by rewrite JsMap_get_set_ne.
Qed.

(** ** Invariants of the reachable states *)

Lemma JsMap_elem_set {K V} `{EqDecision K} (k k' : K) (v v' : V)
    (m : JsMap.t K V) :
  (k', v') ∈ JsMap.set k v m → (k', v') = (k, v) ∨ (k', v') ∈ m.
Proof.
  induction m as [|[k0 v0] m IH]; simpl.
  - intros Hin. apply list_elem_of_singleton in Hin. by left.
  - destruct (decide (k = k0)) as [->|Hne]; intros Hin;
      apply elem_of_cons in Hin as [Heq|Hin].
    + by left.
    + right. by apply list_elem_of_further.
    + right. rewrite Heq. apply list_elem_of_here.
    + destruct (IH Hin) as [?|?]; [by left |].
      right. by apply list_elem_of_further.
Qed.

Lemma wf_initial : wf (@initial_world Payload).
Proof.
  split; simpl.
  - apply NoDup_nil_2.
  - intros event callbacks Hin. by apply elem_of_nil in Hin.
  - apply NoDup_nil_2.
  - done.
Qed.

Lemma wf_callbacks_of event w :
  wf w →
  NoDup (JsMap.keys (callbacks_of event w)) ∧
  ∀ text callback, (text, callback) ∈ callbacks_of event w →
                   cb_toString callback = text.
Proof.
  intros Hwf. unfold callbacks_of.
  destruct (JsMap.get event (subscribers w)) as [callbacks|] eqn:Hget.
  - apply JsMap_get_Some_elem in Hget. by apply (wf_callbacks _ Hwf) in Hget.
  - simpl. split; [apply NoDup_nil_2 |].
    intros text callback Hin. by apply elem_of_nil in Hin.
Qed.

Lemma wf_subscribe event callback w :
  wf w → wf (exec (subscribe event callback) w).
Proof.
  intros Hwf. unfold exec. rewrite subscribe_run. simpl.
  destruct (wf_callbacks_of event w Hwf) as [Hnd Htext].
  split; simpl.
  - apply JsMap_NoDup_set, Hwf.
  - intros event' callbacks Hin.
    apply JsMap_elem_set in Hin as [[= -> ->]|Hin].
    + split; [by apply JsMap_NoDup_set |].
      intros text callback' Hin.
      apply JsMap_elem_set in Hin as [[= -> ->]|Hin]; [done | by apply Htext].
    + by apply (wf_callbacks _ Hwf) in Hin.
  - apply Hwf.
  - apply Hwf.
Qed.

Lemma wf_publish event payload w :
  wf w → wf (exec (publish event payload) w).
Proof.
  intros Hwf. unfold exec.
  destruct (areRegistersReady_of (registers w)) eqn:Hgate.
  - rewrite publish_run_open; [| done]. simpl.
    split; simpl; apply Hwf.
  - rewrite publish_run_closed; [| done]. simpl.
    split; simpl; try apply Hwf.
    + apply JsMap_NoDup_set, Hwf.
    + congruence.
Qed.

Lemma wf_register key w : wf w → wf (exec (register key) w).
Proof.
  intros Hwf. unfold exec. rewrite register_run.
  destruct (registers w !! "hasOwnProperty") as [shadow|]; [done |]. simpl.
  destruct (registers w !! key) as [flag|] eqn:Hkey; [done |].
  destruct (assign_cases key false (registers w)) as [->|(_ & _ & ->)].
  - split; simpl; try apply Hwf.
    intros Hgate.
    assert (areRegistersReady_of (<[key := false]> (registers w)) = false)
      as Hclosed; [| congruence].
    apply areRegistersReady_of_false. exists key.
    by rewrite lookup_insert_eq.
  - split; simpl; apply Hwf.
Qed.

Lemma wf_ready_of key w : wf w → wf (exec (ready_of key) w).
Proof.
  intros Hwf. unfold exec.
  destruct (areRegistersReady_of (assign key true (registers w))) eqn:Hgate.
  - rewrite ready_of_run_flush; [| done]. simpl.
    split; simpl; try apply Hwf; [apply NoDup_nil_2 | done].
  - rewrite ready_of_run_idle; [| by left]. simpl.
    split; simpl; try apply Hwf. congruence.
Qed.

Lemma wf_step w w' : step w w' → wf w → wf w'.
Proof.
  intros Hstep Hwf. destruct Hstep as [| | |key w0 registration w Hreg _].
  - by apply wf_subscribe.
  - by apply wf_publish.
  - by apply wf_register.
  - unfold completion in Hreg. rewrite register_run in Hreg.
    destruct (registers w0 !! "hasOwnProperty"); [discriminate |].
    simpl in Hreg. injection Hreg as <-. simpl. by apply wf_ready_of.
Qed.

(** Every state the dispatcher can reach is well formed: the keys of each
    map are distinct, every callback is filed under its own text, and
    nothing is pending while the gate is open. *)
Lemma reachable_wf w : reachable w → wf w.
Proof.
  unfold reachable. revert w. apply rtc_ind_r.
  - apply wf_initial.
  - intros w1 w2 _ Hstep IH. by eapply wf_step.
Qed.

(** ** Delivery *)

Lemma Invoked_in_delivery payload callback :
  Invoked callback payload ∈ delivery payload callback.
Proof. apply list_elem_of_here. Qed.

Lemma Invoked_in_deliveries payload callback callbacks :
  callback ∈ callbacks →
  Invoked callback payload ∈ deliveries payload callbacks.
Proof.
  intros Hin. unfold deliveries. apply list_elem_of_bind.
  exists callback. split; [apply Invoked_in_delivery | done].
Qed.

Lemma Invoked_in_flush_trace w queue event payload callback :
  (event, payload) ∈ queue →
  callback ∈ subscribers_of event w →
  Invoked callback payload ∈ flush_trace w queue.
Proof.
  intros Hentry Hin. unfold flush_trace. apply list_elem_of_bind.
  exists (event, payload). split; [| done]. by apply Invoked_in_deliveries.
Qed.

(** Only the payload handed over shows up in the calls of a delivery. *)
Lemma Invoked_of_deliveries payload callbacks callback payload' :
  Invoked callback payload' ∈ deliveries payload callbacks →
  payload' = payload ∧ callback ∈ callbacks.
Proof.
  unfold deliveries. intros Hin.
  apply list_elem_of_bind in Hin as (callback0 & Hin & Hcb).
  unfold delivery in Hin. apply elem_of_cons in Hin as [[= -> ->]|Hin].
  - done.
  - destruct (cb_call callback0 payload); [by apply elem_of_nil in Hin |].
    by apply list_elem_of_singleton in Hin.
Qed.

Lemma Invoked_of_flush_trace w queue callback payload :
  Invoked callback payload ∈ flush_trace w queue →
  ∃ event, (event, payload) ∈ queue ∧ callback ∈ subscribers_of event w.
Proof.
  unfold flush_trace. intros Hin.
  apply list_elem_of_bind in Hin as ([event payload0] & Hin & Hentry).
  apply Invoked_of_deliveries in Hin as [-> Hcb]. by exists event.
Qed.

Lemma registration_ready key w0 registration :
  completion (register key) w0 = Normal registration →
  ready registration = ready_of key.
Proof.
  unfold completion. rewrite register_run.
  destruct (registers w0 !! "hasOwnProperty"); [discriminate |].
  simpl. by intros [= <-].
Qed.

(** [ready()] on the last not-ready key. *)
Lemma ready_last_run key w :
  last_not_ready key w →
  ready_of key w
  = (Normal tt,
     set_waitForReadyQueue []
       (append_trace (flush_trace w (waitForReadyQueue w))
          (set_registers (<[key := true]> (registers w)) w))).
Proof.
  intros Hlast.
  assert (assign key true (registers w) = <[key := true]> (registers w))
    as Hown.
  { apply assign_own. destruct Hlast as [-> _]. by eexists. }
  rewrite ready_of_run_flush; rewrite Hown; [done |].
  by apply last_not_ready_opens.
Qed.

Lemma last_not_ready_publish key event payload w :
  last_not_ready key w → last_not_ready key (exec (publish event payload) w).
Proof.
  intros Hlast. unfold exec.
  rewrite publish_run_closed; [done |]. by eapply last_not_ready_closed.
Qed.

(** ** Queueing, flushing and registration (C1, C3 to C6) *)

(** C1. While some registered key is not ready, [publish(E, P)] ends
    normally having stored [P] as the pending entry of [E] and called no
    subscriber (the trace is unchanged).  When [ready()] is then called on
    the last not-ready key, it ends normally, every pending payload has been
    handed to every current subscriber of its event type (the trace grows by
    exactly the flush of the queue) and the queue is empty.  In particular a
    payload published just before reaches every subscriber of its event. *)
Theorem queue_then_flush (w w' w0 : World Payload) (event : string)
    (payload : Payload) (key : string)
    (registration : Registration Payload) :
  (∃ key0, registers w !! key0 = Some false) →
  last_not_ready key w' →
  completion (register key) w0 = Normal registration →
  (publish event payload w
   = (Normal tt,
      set_waitForReadyQueue
        (JsMap.set event payload (waitForReadyQueue w)) w)
   ∧ JsMap.get event (waitForReadyQueue (exec (publish event payload) w))
     = Some payload
   ∧ trace (exec (publish event payload) w) = trace w)
  ∧ (completion (ready registration) w' = Normal tt
     ∧ trace (exec (ready registration) w')
       = trace w' ++ flush_trace w' (waitForReadyQueue w')
     ∧ (∀ event' payload' callback,
          (event', payload') ∈ waitForReadyQueue w' →
          callback ∈ subscribers_of event' w' →
          Invoked callback payload' ∈ trace (exec (ready registration) w'))
     ∧ waitForReadyQueue (exec (ready registration) w') = []
     ∧ subscribers (exec (ready registration) w') = subscribers w')
  ∧ (∀ callback,
       callback ∈ subscribers_of event w' →
       Invoked callback payload
       ∈ trace (exec (ready registration)
                  (exec (publish event payload) w'))).
Proof.
  intros Hclosed Hlast Hreg.
  apply areRegistersReady_of_false in Hclosed.
  rewrite (registration_ready _ _ _ Hreg).
  split; [| split].
  - unfold exec. rewrite publish_run_closed; [| done]. simpl.
    split_and!; [done | apply JsMap_get_set_eq | done].
  - unfold exec, completion. rewrite ready_last_run; [| done]. simpl.
    split_and!; try done.
    intros event' payload' callback Hentry Hcb.
    apply elem_of_app. right. by eapply Invoked_in_flush_trace.
  - intros callback Hcb. unfold exec at 1.
    rewrite ready_last_run; [| by apply last_not_ready_publish]. simpl.
    apply elem_of_app. right.
    apply Invoked_in_flush_trace with (event := event).
    + unfold exec. rewrite publish_run_closed;
        [| by eapply last_not_ready_closed].
      simpl. apply JsMap_get_Some_elem, JsMap_get_set_eq.
    + unfold exec. rewrite publish_run_closed;
        [done | by eapply last_not_ready_closed].
Qed.

(** C3. With the gate closed, publishing [(E, P1)] and then [(E, P2)] ends
    normally in the very state that publishing [(E, P2)] alone leaves: [P2]
    is the one pending entry of [E], no subscriber has been called, and [P1]
    is nowhere in the state.  At the flush every subscriber of [E] is handed
    [P2]; no callback is handed [P1] (unless [P1] is [P2], or was already
    pending under another event type). *)
Theorem overwrite_keeps_latest (w w0 : World Payload) (event : string)
    (p1 p2 : Payload) (key : string) (registration : Registration Payload) :
  (∃ key0, registers w !! key0 = Some false) →
  NoDup (JsMap.keys (waitForReadyQueue w)) →
  completion (register key) w0 = Normal registration →
  let w2 := exec (publish event p2) (exec (publish event p1) w) in
  completion (bind (publish event p1) (λ _, publish event p2)) w = Normal tt
  ∧ exec (bind (publish event p1) (λ _, publish event p2)) w = w2
  ∧ w2 = exec (publish event p2) w
  ∧ filter (λ entry, entry.1 = event) (waitForReadyQueue w2) = [(event, p2)]
  ∧ trace w2 = trace w
  ∧ (last_not_ready key w →
     trace (exec (ready registration) w2)
     = trace w ++ flush_trace w (waitForReadyQueue w2)
     ∧ waitForReadyQueue (exec (ready registration) w2) = []
     ∧ (∀ callback, callback ∈ subscribers_of event w →
                    Invoked callback p2 ∈ flush_trace w (waitForReadyQueue w2))
     ∧ (p1 ≠ p2 →
        (∀ event', (event', p1) ∉ waitForReadyQueue w) →
        ∀ callback,
          Invoked callback p1 ∉ flush_trace w (waitForReadyQueue w2))).
Proof.
  intros Hclosed Hnd Hreg w2.
  apply areRegistersReady_of_false in Hclosed.
  assert (w2 = set_waitForReadyQueue
                 (JsMap.set event p2 (waitForReadyQueue w)) w) as Hw2.
  { unfold w2, exec. rewrite (publish_run_closed event p1 w Hclosed). simpl.
    rewrite publish_run_closed; [| done]. simpl.
    unfold set_waitForReadyQueue. simpl. by rewrite JsMap_set_set. }
  split_and!.
  - unfold completion, bind. rewrite (publish_run_closed event p1 w Hclosed).
    by rewrite publish_run_closed.
  - unfold w2, exec, bind.
    by rewrite (publish_run_closed event p1 w Hclosed).
  - rewrite Hw2. unfold exec. by rewrite publish_run_closed.
  - rewrite Hw2. simpl. apply JsMap_filter_key.
    + by apply JsMap_NoDup_set.
    + apply JsMap_get_set_eq.
  - by rewrite Hw2.
  - intros Hlast. rewrite (registration_ready _ _ _ Hreg).
    assert (last_not_ready key w2) as Hlast2 by by rewrite Hw2.
    unfold exec. rewrite ready_last_run; [| done]. simpl.
    rewrite Hw2. simpl. split_and!; try done.
    + intros callback Hcb. apply Invoked_in_flush_trace with (event := event).
      * apply JsMap_get_Some_elem, JsMap_get_set_eq.
      * done.
    + intros Hne Hfresh callback Hin.
      apply Invoked_of_flush_trace in Hin as (event' & Hentry & _).
      apply JsMap_elem_set in Hentry as [[= _ Heq]|Hentry]; [done |].
      by apply Hfresh in Hentry.
Qed.

(** C4. When a subscriber of an event type throws, [publishEvent] ends
    normally: the subscribers before it were called, its call is followed by
    one line on [console.error] labelled [Analytics publish error], and every
    subscriber after it is still called with the payload.  Neither [publish]
    nor the flush inside [ready()] lets the error out. *)
Theorem error_isolation (w : World Payload) (event : string)
    (payload : Payload) (before after : list (Callback Payload))
    (thrower : Callback Payload) (error : Thrown) :
  subscribers_of event w = before ++ thrower :: after →
  cb_call thrower payload = Raises error →
  publishEvent event payload w
  = (Normal tt,
     append_trace
       (deliveries payload before
        ++ [Invoked thrower payload;
            ConsoleError "Analytics publish error" (console_arg error)]
        ++ deliveries payload after) w)
  ∧ (∀ callback, callback ∈ after →
       Invoked callback payload ∈ trace (exec (publishEvent event payload) w))
  ∧ completion (publish event payload) w = Normal tt
  ∧ (areRegistersReady_of (registers w) = true →
     exec (publish event payload) w = exec (publishEvent event payload) w)
  ∧ (∀ key, completion (ready_of key) w = Normal tt)
  ∧ (∀ key, last_not_ready key w →
       (event, payload) ∈ waitForReadyQueue w →
       ∀ callback, callback ∈ before ++ thrower :: after →
         Invoked callback payload ∈ trace (exec (ready_of key) w)).
Proof.
  intros Hsubs Hthrows. split_and!.
  - rewrite publishEvent_run, Hsubs, deliveries_app, deliveries_cons.
    unfold delivery. by rewrite Hthrows.
  - intros callback Hin. unfold exec. rewrite publishEvent_run. simpl.
    apply elem_of_app. right. apply Invoked_in_deliveries.
    rewrite Hsubs. apply elem_of_app. right. by apply list_elem_of_further.
  - unfold completion.
    destruct (areRegistersReady_of (registers w)) eqn:Hgate.
    + by rewrite publish_run_open.
    + by rewrite publish_run_closed.
  - intros Hgate. unfold exec.
    by rewrite publish_run_open, publishEvent_run.
  - intros key. unfold completion.
    destruct (areRegistersReady_of (assign key true (registers w)))
      eqn:Hgate.
    + by rewrite ready_of_run_flush.
    + rewrite ready_of_run_idle; [done | by left].
  - intros key Hlast Hentry callback Hin. unfold exec.
    rewrite ready_last_run; [| done]. simpl.
    apply elem_of_app. right.
    apply Invoked_in_flush_trace with (event := event); [done |].
    by rewrite Hsubs.
Qed.

(** Registration where it works as meant: while [registers] has no own
    property [hasOwnProperty], [register(k)] for a key that is already
    registered changes nothing in the state, so the flag of [k] keeps its
    value; it returns a [ready] closure that is the one every other call of
    [register(k)] returns, and running it leaves the flag of [k] true in
    every state where [k] is an own property or is not [__proto__].
    Registering twice leaves what registering once leaves. *)
Lemma register_idempotent (w : World Payload) (key : string) (flag : bool) :
  registers w !! "hasOwnProperty" = None →
  registers w !! key = Some flag →
  ∃ registration,
    register key w = (Normal registration, w)
    ∧ registers (exec (register key) w) !! key = Some flag
    ∧ (∀ w0 registration0,
         completion (register key) w0 = Normal registration0 →
         ready registration0 = ready registration)
    ∧ (∀ w', completion (ready registration) w' = Normal tt
             ∧ (is_Some (registers w' !! key) ∨ key ≠ "__proto__" →
                registers (exec (ready registration) w') !! key = Some true))
    ∧ (∀ w0 : World Payload,
         exec (register key) (exec (register key) w0)
         = exec (register key) w0).
Proof.
  intros Hmethod Hkey. exists {| ready := ready_of key |}.
  split_and!.
  - rewrite register_run. by rewrite Hmethod, Hkey.
  - unfold exec. rewrite register_run. by rewrite Hmethod, Hkey.
  - intros w0 registration0 Hreg. simpl. by eapply registration_ready.
  - intros w'. simpl.
    assert (registers (exec (ready_of key) w')
            = assign key true (registers w')
            ∧ completion (ready_of key) w' = Normal tt) as [Hregs Hends].
    { unfold completion, exec.
      destruct (areRegistersReady_of (assign key true (registers w')))
        eqn:Hgate.
      - by rewrite ready_of_run_flush.
      - rewrite ready_of_run_idle; [done | by left]. }
    split; [done |]. intros Hcan. rewrite Hregs.
    destruct Hcan as [Hown|Hname].
    + rewrite assign_own; [apply lookup_insert_eq | done].
    + rewrite assign_ordinary; [apply lookup_insert_eq | done].
  - intros w0. unfold exec. rewrite (register_run key w0).
    destruct (registers w0 !! "hasOwnProperty") as [shadow|] eqn:Hmethod0.
    { simpl. rewrite register_run. by rewrite Hmethod0. }
    destruct (registers w0 !! key) as [flag0|] eqn:Hkey0; simpl.
    { rewrite register_run. by rewrite Hmethod0, Hkey0. }
    rewrite register_run. simpl.
    destruct (assign_cases key false (registers w0))
      as [->|(_ & _ & Hsame)].
    + destruct (<[key := false]> (registers w0) !! "hasOwnProperty");
        [done |]. by rewrite lookup_insert_eq.
    + rewrite Hsame, Hmethod0, Hkey0. simpl.
      unfold set_registers. simpl. by rewrite Hsame.
Qed.

(** Once a key called [hasOwnProperty] is stored, it shadows the method
    [register] calls: every later [register] throws and changes nothing. *)
Lemma register_shadowed (w : World Payload) (key : string) :
  is_Some (registers w !! "hasOwnProperty") →
  register key w
  = (Abrupt (ErrorObject "registers.hasOwnProperty is not a function"), w).
Proof. intros [shadow Hshadow]. rewrite register_run. by rewrite Hshadow. Qed.

(** C5 (what the code does).  [register("hasOwnProperty")] on the initial
    state ends normally and stores the key with a false flag.  From then on
    [register(k)] throws a [TypeError] for every [k], the registered key
    included, instead of keeping the flag and returning a [ready] closure.
    And [register("__proto__")] stores nothing: the [ready] of the closure
    it returns ends normally and leaves the key unregistered, not ready. *)
Theorem register_hasOwnProperty_throws :
  completion (register "hasOwnProperty") (@initial_world Payload)
  = Normal {| ready := ready_of "hasOwnProperty" |}
  ∧ registers (exec (register "hasOwnProperty") (@initial_world Payload))
    !! "hasOwnProperty" = Some false
  ∧ (∀ key,
       register key (exec (register "hasOwnProperty") initial_world)
       = (Abrupt (ErrorObject "registers.hasOwnProperty is not a function"),
          exec (register "hasOwnProperty") (@initial_world Payload)))
  ∧ register "__proto__" (@initial_world Payload)
    = (Normal {| ready := ready_of "__proto__" |}, initial_world)
  ∧ ready_of "__proto__" (@initial_world Payload) = (Normal tt, initial_world)
  ∧ registers (exec (ready_of "__proto__")
                 (exec (register "__proto__") (@initial_world Payload)))
    !! "__proto__" = None.
Proof.
  assert (exec (register "hasOwnProperty") (@initial_world Payload)
          = set_registers {["hasOwnProperty" := false]} initial_world)
    as Hfirst by done.
  split_and!; [done | done | | done | done | done].
  intros key. rewrite Hfirst. apply register_shadowed. simpl.
  rewrite lookup_singleton_eq. by eexists.
Qed.

(** C6. With no key registered the gate is open: [areRegistersReady()]
    returns [true], and [publish(E, P)] hands [P] to the current subscribers
    of [E] at once, in order, and leaves the pending queue as it was, which
    in a state the dispatcher can reach is empty. *)
Theorem vacuous_readiness (w : World Payload) (event : string)
    (payload : Payload) :
  registers w = ∅ →
  areRegistersReady w = (Normal true, w)
  ∧ publish event payload w
    = (Normal tt,
       append_trace (deliveries payload (subscribers_of event w)) w)
  ∧ waitForReadyQueue (exec (publish event payload) w) = waitForReadyQueue w
  ∧ (reachable w → waitForReadyQueue (exec (publish event payload) w) = []).
Proof.
  intros Hempty.
  assert (areRegistersReady_of (registers w) = true) as Hgate.
  { rewrite Hempty. apply areRegistersReady_of_empty. }
  split_and!.
  - unfold areRegistersReady, gets. by rewrite Hgate.
  - by apply publish_run_open.
  - unfold exec. by rewrite publish_run_open.
  - intros Hreach. unfold exec. rewrite publish_run_open; [| done]. simpl.
    by apply (wf_ready_empty _ (reachable_wf _ Hreach)).
Qed.

(** ** Runs of writes to the pending queue (C7) *)

Lemma set_waitForReadyQueue_same w :
  set_waitForReadyQueue (waitForReadyQueue w) w = w.
Proof. by destruct w. Qed.

Lemma publish_all_run_closed writes w :
  areRegistersReady_of (registers w) = false →
  publish_all writes w
  = (Normal tt,
     set_waitForReadyQueue (write_all writes (waitForReadyQueue w)) w).
Proof.
  intros Hgate. revert w Hgate.
  induction writes as [|[event payload] writes IH]; intros w Hgate.
  - simpl. unfold ret. by rewrite set_waitForReadyQueue_same.
  - cbn [publish_all]. unfold bind. rewrite publish_run_closed; [| done].
    rewrite IH; [done | done].
Qed.

Lemma first_writes_elem seen events event :
  event ∈ first_writes seen events → event ∈ events ∧ event ∉ seen.
Proof.
  revert seen. induction events as [|event' events IH]; intros seen; simpl.
  - intros Hin. by apply elem_of_nil in Hin.
  - destruct (decide (event' ∈ seen)) as [Hseen|Hnew].
    + intros Hin. apply IH in Hin as [Hin Hnot].
      split; [by apply list_elem_of_further | done].
    + intros Hin. apply elem_of_cons in Hin as [->|Hin].
      * split; [apply list_elem_of_here | done].
      * apply IH in Hin as [Hin Hnot].
        split; [by apply list_elem_of_further |].
        intros Hseen. apply Hnot, elem_of_app. by left.
Qed.

Lemma first_writes_app seen events events' :
  first_writes seen (events ++ events')
  = first_writes seen events
    ++ first_writes (seen ++ first_writes seen events) events'.
Proof.
  revert seen. induction events as [|event events IH]; intros seen; simpl.
  - by rewrite app_nil_r.
  - destruct (decide (event ∈ seen)) as [Hseen|Hnew].
    + apply IH.
    + rewrite IH. simpl. by rewrite <- app_assoc.
Qed.

(** The keys of the queue after a run of writes: those it had, then the
    new event types in the order of their first write. *)
Lemma keys_write_all (writes : list (string * Payload)) queue :
  JsMap.keys (write_all writes queue)
  = JsMap.keys queue ++ first_writes (JsMap.keys queue) writes.*1.
Proof.
  revert queue. induction writes as [|[event payload] writes IH];
    intros queue.
  - simpl. by rewrite app_nil_r.
  - cbn [write_all foldl fmap list_fmap fst snd first_writes].
    fold (write_all writes (JsMap.set event payload queue)). rewrite IH.
    destruct (decide (event ∈ JsMap.keys queue)) as [Hold|Hnew].
    + by rewrite JsMap_keys_set_present.
    + rewrite JsMap_keys_set_fresh; [| done]. by rewrite <- app_assoc.
Qed.

(** The value under a key after a run of writes: the last one written. *)
Lemma get_write_all (writes : list (string * Payload)) queue event :
  JsMap.get event (write_all writes queue)
  = latest event writes (JsMap.get event queue).
Proof.
  revert queue. induction writes as [|[event' payload] writes IH];
    intros queue; [done |].
  cbn [write_all foldl latest fst snd].
  fold (write_all writes (JsMap.set event' payload queue)). rewrite IH.
  destruct (decide (event' = event)) as [->|Hne].
  - by rewrite JsMap_get_set_eq.
  - by rewrite JsMap_get_set_ne.
Qed.

Lemma JsMap_get_app_fresh {V} (k : string) (v : V)
    (m1 m2 : JsMap.t string V) :
  k ∉ JsMap.keys m1 → JsMap.get k (m1 ++ (k, v) :: m2) = Some v.
Proof.
  unfold JsMap.keys. induction m1 as [|[k0 v0] m1 IH]; simpl.
  - intros _. by rewrite decide_True.
  - rewrite not_elem_of_cons. intros [Hne Hm1].
    rewrite decide_False; [by apply IH | done].
Qed.

(** A place in the keys of a map is the place of an entry. *)
Lemma JsMap_keys_split {V} (m : JsMap.t string V) (ks1 ks2 : list string)
    (k : string) :
  JsMap.keys m = ks1 ++ k :: ks2 →
  ∃ m1 v m2, m = m1 ++ (k, v) :: m2
             ∧ JsMap.keys m1 = ks1 ∧ JsMap.keys m2 = ks2.
Proof.
  unfold JsMap.keys. intros Hkeys.
  apply fmap_app_inv in Hkeys as (m1 & m' & Hm1 & Hm' & ->).
  symmetry in Hm'. apply fmap_cons_inv in Hm' as ([k' v] & m2 & Hk & Hm2 & ->).
  simpl in Hk. subst k'. by exists m1, v, m2.
Qed.

(** C7. Take a run of publishes made while the gate is closed in which the
    first write of [E1] comes before the first write of [E2] (both event
    types without a pending entry before).  Whatever is written before, in
    between and after, including further writes of [E1] and [E2], the queue
    then lists the entry of [E1] before the entry of [E2], each holding the
    payload last written for it, and the flush hands [E1]'s payload to
    [E1]'s subscribers before it hands [E2]'s payload to [E2]'s.  In general
    the queue lists the event types in the order of their first write. *)
Theorem flush_order (w w0 : World Payload)
    (pre mid post : list (string * Payload)) (E1 E2 : string)
    (a b : Payload) (key : string) (registration : Registration Payload) :
  last_not_ready key w →
  completion (register key) w0 = Normal registration →
  E1 ∉ JsMap.keys (waitForReadyQueue w) ++ pre.*1 →
  E2 ∉ JsMap.keys (waitForReadyQueue w) ++ pre.*1 ++ E1 :: mid.*1 →
  let writes := pre ++ (E1, a) :: mid ++ (E2, b) :: post in
  let w1 := exec (publish_all writes) w in
  JsMap.keys (waitForReadyQueue w1)
  = JsMap.keys (waitForReadyQueue w)
    ++ first_writes (JsMap.keys (waitForReadyQueue w)) writes.*1
  ∧ ∃ q1 q2 q3 p1 p2,
      waitForReadyQueue w1 = q1 ++ (E1, p1) :: q2 ++ (E2, p2) :: q3
      ∧ latest E1 writes None = Some p1
      ∧ latest E2 writes None = Some p2
      ∧ trace (exec (ready registration) w1)
        = trace w ++ flush_trace w q1
          ++ deliveries p1 (subscribers_of E1 w)
          ++ flush_trace w q2
          ++ deliveries p2 (subscribers_of E2 w)
          ++ flush_trace w q3
      ∧ waitForReadyQueue (exec (ready registration) w1) = [].
Proof.
  intros Hlast Hreg HE1 HE2 writes w1.
  pose proof (last_not_ready_closed _ _ Hlast) as Hclosed.
  set (K := JsMap.keys (waitForReadyQueue w)) in *.
  assert (w1 = set_waitForReadyQueue
                 (write_all writes (waitForReadyQueue w)) w) as Hw1.
  { unfold w1, exec. by rewrite publish_all_run_closed. }
  assert (JsMap.keys (waitForReadyQueue w1) = K ++ first_writes K writes.*1)
    as Hkeys.
  { rewrite Hw1. simpl. apply keys_write_all. }
  split; [done |].
  (* where the two first writes land among the keys *)
  set (F1 := first_writes K pre.*1).
  set (S2 := (K ++ F1) ++ [E1]).
  set (F2 := first_writes S2 mid.*1).
  set (F3 := first_writes ((S2 ++ F2) ++ [E2]) post.*1).
  assert (E1 ∉ K ++ F1) as HE1'.
  { intros Hin. apply HE1. apply elem_of_app in Hin as [Hin|Hin];
      apply elem_of_app; [by left | right].
    by apply first_writes_elem in Hin as [Hin _]. }
  assert (E2 ∉ S2 ++ F2) as HE2'.
  { intros Hin. apply HE2. unfold S2 in Hin.
    rewrite !elem_of_app, elem_of_cons.
    rewrite !elem_of_app, list_elem_of_singleton in Hin.
    destruct Hin as [[[Hin|Hin]|Hin]|Hin].
    - by left.
    - apply first_writes_elem in Hin as [Hin _]. right. by left.
    - right. right. by left.
    - apply first_writes_elem in Hin as [Hin _]. right. right. by right. }
  assert (first_writes K writes.*1 = F1 ++ E1 :: F2 ++ E2 :: F3) as Hfirst.
  { unfold writes. rewrite fmap_app, fmap_cons, fmap_app, fmap_cons. simpl.
    rewrite first_writes_app. fold F1. f_equal. simpl.
    rewrite decide_False; [| done]. f_equal. fold S2.
    rewrite first_writes_app. fold F2. f_equal. simpl.
    by rewrite decide_False. }
  rewrite Hfirst in Hkeys. rewrite app_assoc in Hkeys.
  apply JsMap_keys_split in Hkeys as (q1 & p1 & rest & Hqueue & Hq1 & Hrest).
  apply JsMap_keys_split in Hrest as (q2 & p2 & q3 & -> & Hq2 & Hq3).
  exists q1, q2, q3, p1, p2.
  assert (JsMap.get E1 (waitForReadyQueue w) = None) as Hnone1.
  { apply JsMap_get_None. intros Hin. apply HE1, elem_of_app. by left. }
  assert (JsMap.get E2 (waitForReadyQueue w) = None) as Hnone2.
  { apply JsMap_get_None. intros Hin. apply HE2, elem_of_app. by left. }
  split_and!.
  - done.
  - rewrite <- Hnone1, <- get_write_all.
    replace (write_all writes (waitForReadyQueue w))
      with (waitForReadyQueue w1) by by rewrite Hw1.
    rewrite Hqueue. apply JsMap_get_app_fresh. by rewrite Hq1.
  - rewrite <- Hnone2, <- get_write_all.
    replace (write_all writes (waitForReadyQueue w))
      with (waitForReadyQueue w1) by by rewrite Hw1.
    rewrite Hqueue.
    replace (q1 ++ (E1, p1) :: q2 ++ (E2, p2) :: q3)
      with ((q1 ++ (E1, p1) :: q2) ++ (E2, p2) :: q3)
      by by rewrite <- app_assoc.
    apply JsMap_get_app_fresh.
    unfold JsMap.keys in *. rewrite fmap_app, fmap_cons, Hq1, Hq2. simpl.
    intros Hin. apply HE2'. unfold S2.
    rewrite <- !app_assoc in *. done.
  - rewrite (registration_ready _ _ _ Hreg). unfold exec at 1.
    rewrite ready_last_run; [| by rewrite Hw1]. simpl.
    rewrite Hqueue. replace (trace w1) with (trace w) by by rewrite Hw1.
    f_equal.
    rewrite flush_trace_app, flush_trace_cons, flush_trace_app,
      flush_trace_cons.
    by rewrite Hw1.
  - rewrite (registration_ready _ _ _ Hreg). unfold exec at 1.
    rewrite ready_last_run; [done | by rewrite Hw1].
Qed.

(** ** Subscribing (C8 to C10) *)

Lemma subscribe_registers event callback w :
  registers (exec (subscribe event callback) w) = registers w.
Proof. unfold exec. by rewrite subscribe_run. Qed.

Lemma subscribe_trace event callback w :
  trace (exec (subscribe event callback) w) = trace w.
Proof. unfold exec. by rewrite subscribe_run. Qed.

Lemma subscribe_queue event callback w :
  waitForReadyQueue (exec (subscribe event callback) w) = waitForReadyQueue w.
Proof. unfold exec. by rewrite subscribe_run. Qed.

(** Subscribing never moves a text that is already in the table: a new text
    goes last, a known text keeps its place. *)
Lemma subscribe_keeps_places event callback w :
  JsMap.keys (callbacks_of event (exec (subscribe event callback) w))
  = if decide (cb_toString callback ∈ JsMap.keys (callbacks_of event w))
    then JsMap.keys (callbacks_of event w)
    else JsMap.keys (callbacks_of event w) ++ [cb_toString callback].
Proof.
  rewrite callbacks_of_subscribe. case_decide.
  - by apply JsMap_keys_set_present.
  - by apply JsMap_keys_set_fresh.
Qed.

(** A publish with the gate open calls the subscribers in the order of the
    table. *)
Lemma publish_in_table_order event payload w before between after
    (A B : Callback Payload) :
  areRegistersReady_of (registers w) = true →
  subscribers_of event w = before ++ A :: between ++ B :: after →
  publish event payload w
  = (Normal tt,
     append_trace
       (deliveries payload before ++ delivery payload A
        ++ deliveries payload between ++ delivery payload B
        ++ deliveries payload after) w).
Proof.
  intros Hgate Hsubs. rewrite publish_run_open; [| done]. rewrite Hsubs.
  by rewrite deliveries_app, deliveries_cons, deliveries_app,
    deliveries_cons.
Qed.

Lemma called_before_deliveries payload (A B : Callback Payload)
    (l1 l2 l3 : list (Effect Payload)) :
  called_before payload A B
    (l1 ++ delivery payload A ++ l2 ++ delivery payload B ++ l3).
Proof.
  exists (length l1), (length (l1 ++ delivery payload A ++ l2)).
  split_and!.
  - rewrite !length_app. unfold delivery. simpl. lia.
  - by rewrite lookup_app_r, Nat.sub_diag.
  - replace (l1 ++ delivery payload A ++ l2 ++ delivery payload B ++ l3)
      with ((l1 ++ delivery payload A ++ l2) ++ delivery payload B ++ l3)
      by by rewrite <- !app_assoc.
    by rewrite lookup_app_r, Nat.sub_diag.
Qed.

(** C8 (as amended).  A subscriber is filed under its source text, and a
    text keeps the place it had when it was first subscribed.  So when [A]
    and then [B] are subscribed to an event type, with different texts and
    [B]'s text not subscribed there before, [B] is the last subscriber and
    [A] stands before it; a publish with the gate open then runs [A]'s call,
    and the logging of its error if it throws, before [B]'s call.  When the
    event type had no subscriber, the subscribers are exactly [A; B] and the
    publish adds exactly [A]'s delivery followed by [B]'s.  Later
    subscriptions do not change the order, and in any state a publish calls
    the subscribers in the order of the table. *)
Theorem delivery_follows_registration (w : World Payload) (event : string)
    (A B : Callback Payload) (payload : Payload) :
  areRegistersReady_of (registers w) = true →
  cb_toString A ≠ cb_toString B →
  cb_toString B ∉ JsMap.keys (callbacks_of event w) →
  let w' := exec (subscribe event B) (exec (subscribe event A) w) in
  (∃ before between,
     subscribers_of event w' = before ++ A :: between ++ [B]
     ∧ publish event payload w'
       = (Normal tt,
          append_trace
            (deliveries payload before ++ delivery payload A
             ++ deliveries payload between ++ delivery payload B) w'))
  ∧ called_before payload A B (trace (exec (publish event payload) w'))
  ∧ (callbacks_of event w = [] →
     subscribers_of event w' = [A; B]
     ∧ trace (exec (publish event payload) w')
       = trace w ++ delivery payload A ++ delivery payload B)
  ∧ (∀ (w1 : World Payload) (C : Callback Payload),
       ∃ added,
         JsMap.keys (callbacks_of event (exec (subscribe event C) w1))
         = JsMap.keys (callbacks_of event w1) ++ added)
  ∧ (∀ (w1 : World Payload) before between after,
       areRegistersReady_of (registers w1) = true →
       subscribers_of event w1 = before ++ A :: between ++ B :: after →
       trace (exec (publish event payload) w1)
       = trace w1 ++ deliveries payload before ++ delivery payload A
         ++ deliveries payload between ++ delivery payload B
         ++ deliveries payload after).
Proof.
  intros Hgate Htexts Hfresh w'.
  assert (areRegistersReady_of (registers w') = true) as Hgate'.
  { unfold w'. by rewrite !subscribe_registers. }
  assert (callbacks_of event w'
          = JsMap.set (cb_toString A) A (callbacks_of event w)
            ++ [(cb_toString B, B)]) as Htable.
  { unfold w'. rewrite !callbacks_of_subscribe.
    apply JsMap_set_fresh.
    destruct (decide (cb_toString A ∈ JsMap.keys (callbacks_of event w))).
    - by rewrite JsMap_keys_set_present.
    - rewrite JsMap_keys_set_fresh; [| done].
      rewrite elem_of_app, list_elem_of_singleton. intros [?|?]; [done |].
      by apply Htexts. }
  assert (∃ before between,
            subscribers_of event w' = before ++ A :: between ++ [B]
            ∧ publish event payload w'
              = (Normal tt,
                 append_trace
                   (deliveries payload before ++ delivery payload A
                    ++ deliveries payload between ++ delivery payload B) w'))
    as Horder.
  { destruct (JsMap_get_split (cb_toString A) A
                (JsMap.set (cb_toString A) A (callbacks_of event w)))
      as (m1 & m2 & Hsplit & _); [apply JsMap_get_set_eq |].
    exists m1.*2, m2.*2.
    assert (subscribers_of event w' = m1.*2 ++ A :: m2.*2 ++ [B]) as Hsubs.
    { unfold subscribers_of, JsMap.values. rewrite Htable, Hsplit.
      rewrite fmap_app, fmap_app, fmap_cons. simpl.
      by rewrite <- app_assoc. }
    split; [done |].
    rewrite (publish_in_table_order event payload w' m1.*2 m2.*2 [] A B);
      [| done | done].
    do 5 f_equal. by rewrite app_nil_r. }
  split_and!.
  - done.
  - destruct Horder as (before & between & _ & Hrun).
    unfold exec. rewrite Hrun. cbn [snd trace append_trace].
    replace (trace w' ++ deliveries payload before ++ delivery payload A
             ++ deliveries payload between ++ delivery payload B)
      with ((trace w' ++ deliveries payload before) ++ delivery payload A
            ++ deliveries payload between ++ delivery payload B ++ [])
      by by rewrite app_nil_r, <- !app_assoc.
    apply called_before_deliveries.
  - intros Hnone. rewrite Hnone in Htable. simpl in Htable.
    assert (subscribers_of event w' = [A; B]) as Hsubs.
    { unfold subscribers_of. by rewrite Htable. }
    split; [done |]. unfold exec at 1.
    rewrite publish_run_open; [| done]. simpl. rewrite Hsubs.
    unfold w'. rewrite !subscribe_trace. f_equal.
    unfold deliveries. simpl. by rewrite app_nil_r.
  - intros w1 C. rewrite subscribe_keeps_places. case_decide.
    + exists []. by rewrite app_nil_r.
    + by eexists.
  - intros w1 before between after Hopen Hsubs. unfold exec.
    by rewrite (publish_in_table_order _ _ _ _ _ _ _ _ Hopen Hsubs).
Qed.

(** C9. Subscribing a callback whose text is already subscribed under the
    event type adds no entry: the keys of the table and the number of
    subscribers stay as they were, the text now leads to the later callback,
    which stands where the earlier one stood, and the earlier callback, when
    it is another closure, is no longer a subscriber.  The tables of the
    other event types are untouched. *)
Theorem subscribe_collision (w : World Payload) (event : string)
    (old new : Callback Payload) :
  wf w →
  JsMap.get (cb_toString new) (callbacks_of event w) = Some old →
  let w' := exec (subscribe event new) w in
  JsMap.keys (callbacks_of event w') = JsMap.keys (callbacks_of event w)
  ∧ length (subscribers_of event w') = length (subscribers_of event w)
  ∧ JsMap.get (cb_toString new) (callbacks_of event w') = Some new
  ∧ (∃ before after,
       subscribers_of event w = before ++ old :: after
       ∧ subscribers_of event w' = before ++ new :: after)
  ∧ (old ≠ new → old ∉ subscribers_of event w')
  ∧ (∀ event', event ≠ event' →
       callbacks_of event' w' = callbacks_of event' w).
Proof.
  intros Hwf Hold w'.
  destruct (wf_callbacks_of event w Hwf) as [Hnd Htext].
  assert (callbacks_of event w'
          = JsMap.set (cb_toString new) new (callbacks_of event w)) as Htable.
  { apply callbacks_of_subscribe. }
  assert (cb_toString new ∈ JsMap.keys (callbacks_of event w)) as Hin.
  { apply JsMap_has_true. unfold JsMap.has. by rewrite Hold. }
  destruct (JsMap_get_split _ _ _ Hold) as (m1 & m2 & Hsplit & Hm1).
  split_and!.
  - rewrite Htable. by apply JsMap_keys_set_present.
  - unfold subscribers_of, JsMap.values. rewrite !length_fmap, Htable.
    by apply JsMap_size_set_present.
  - rewrite Htable. apply JsMap_get_set_eq.
  - exists m1.*2, m2.*2. unfold subscribers_of, JsMap.values.
    rewrite Htable, Hsplit. rewrite JsMap_set_present; [| done].
    by rewrite !fmap_app, !fmap_cons.
  - intros Hne Hstill. unfold subscribers_of, JsMap.values in Hstill.
    apply list_elem_of_fmap in Hstill as ([text callback] & Heq & Hentry).
    simpl in Heq. subst callback.
    assert (JsMap.get text (callbacks_of event w') = Some old) as Hget.
    { apply JsMap_elem_get; [| done].
      rewrite Htable. by apply JsMap_NoDup_set. }
    rewrite Htable in Hentry.
    apply JsMap_elem_set in Hentry as [[= _ Heq]|Hentry]; [done |].
    apply Htext in Hentry as Hfiled.
    apply JsMap_get_Some_elem, Htext in Hold.
    rewrite <- Hfiled, Hold, Htable, JsMap_get_set_eq in Hget.
    by injection Hget as ->.
  - intros event' Hne. by apply callbacks_of_subscribe_other.
Qed.

(** C10. When [ready()] opens the gate, a pending entry whose event type
    has no subscriber adds nothing to the trace, and the queue is emptied
    all the same: the state is the one the flush would leave had the entry
    never been pending.  A callback subscribed to that event type afterwards
    is not called by its subscription, and at the next publish it is handed
    the payload of that publish only. *)
Theorem flush_discards_unsubscribed (w w0 : World Payload) (key : string)
    (registration : Registration Payload) (event : string)
    (payload : Payload) (q1 q2 : JsMap.t string Payload) :
  last_not_ready key w →
  completion (register key) w0 = Normal registration →
  waitForReadyQueue w = q1 ++ (event, payload) :: q2 →
  subscribers_of event w = [] →
  let w' := exec (ready registration) w in
  completion (ready registration) w = Normal tt
  ∧ waitForReadyQueue w' = []
  ∧ trace w' = trace w ++ flush_trace w q1 ++ flush_trace w q2
  ∧ w' = exec (ready registration) (set_waitForReadyQueue (q1 ++ q2) w)
  ∧ (∀ late : Callback Payload,
       let w'' := exec (subscribe event late) w' in
       trace w'' = trace w'
       ∧ waitForReadyQueue w'' = []
       ∧ ∀ payload',
           trace (exec (publish event payload') w'')
           = trace w' ++ delivery payload' late).
Proof.
  intros Hlast Hreg Hqueue Hnone.
  rewrite (registration_ready _ _ _ Hreg). intros w'.
  assert (w' = set_waitForReadyQueue []
                 (append_trace (flush_trace w q1 ++ flush_trace w q2)
                    (set_registers (<[key := true]> (registers w)) w)))
    as Hw'.
  { unfold w', exec. rewrite ready_last_run; [| done]. simpl.
    rewrite Hqueue, flush_trace_app, flush_trace_cons, Hnone. done. }
  split_and!.
  - unfold completion. by rewrite ready_last_run.
  - by rewrite Hw'.
  - by rewrite Hw'.
  - rewrite Hw'. unfold exec. rewrite ready_last_run; [| done]. simpl.
    by rewrite flush_trace_app.
  - intros late w''.
    assert (callbacks_of event w = []) as Hempty.
    { unfold subscribers_of, JsMap.values in Hnone.
      by apply fmap_nil_inv in Hnone. }
    split_and!.
    + apply subscribe_trace.
    + unfold w''. rewrite subscribe_queue. by rewrite Hw'.
    + intros payload'. unfold exec at 1. rewrite publish_run_open.
      * simpl. unfold w'' at 1. rewrite subscribe_trace. f_equal.
        unfold subscribers_of, w''. rewrite callbacks_of_subscribe.
        replace (callbacks_of event w') with (callbacks_of event w)
          by by rewrite Hw'.
        rewrite Hempty. unfold deliveries. simpl. by rewrite app_nil_r.
      * unfold w''. rewrite subscribe_registers, Hw'. simpl.
        by apply last_not_ready_opens.
Qed.

(** * More on the dispatcher *)

(** ** What each call leaves alone *)

Lemma step_inv w w' :
  step w w' →
  (∃ event callback, w' = exec (subscribe event callback) w)
  ∨ (∃ event payload, w' = exec (publish event payload) w)
  ∨ (∃ key, w' = exec (register key) w)
  ∨ (∃ key, w' = exec (ready_of key) w).
Proof.
  intros [event callback w1|event payload w1|key w1|key w0 registration w1
          Hreg _].
  - left. by exists event, callback.
  - right. left. by exists event, payload.
  - right. right. left. by exists key.
  - right. right. right. exists key.
    by rewrite (registration_ready _ _ _ Hreg).
Qed.

Lemma reachable_step w w' : reachable w → step w w' → reachable w'.
Proof. unfold reachable. intros Hreach Hstep. by eapply rtc_r. Qed.

Lemma subscribe_subscribers_other event callback w :
  ∀ event', event ≠ event' →
    JsMap.get event' (subscribers (exec (subscribe event callback) w))
    = JsMap.get event' (subscribers w).
Proof.
  intros event' Hne. unfold exec. rewrite subscribe_run. simpl.
  by rewrite JsMap_get_set_ne.
Qed.

Lemma publish_cases event payload w :
  (areRegistersReady_of (registers w) = false
   ∧ exec (publish event payload) w
     = set_waitForReadyQueue
         (JsMap.set event payload (waitForReadyQueue w)) w)
  ∨ (areRegistersReady_of (registers w) = true
     ∧ exec (publish event payload) w
       = append_trace (deliveries payload (subscribers_of event w)) w).
Proof.
  unfold exec. destruct (areRegistersReady_of (registers w)) eqn:Hgate.
  - right. by rewrite publish_run_open.
  - left. by rewrite publish_run_closed.
Qed.

Lemma set_registers_same w : set_registers (registers w) w = w.
Proof. by destruct w. Qed.

Lemma register_cases key w :
  exec (register key) w = w
  ∨ (registers w !! key = None
     ∧ exec (register key) w
       = set_registers (<[key := false]> (registers w)) w).
Proof.
  unfold exec. rewrite register_run.
  destruct (registers w !! "hasOwnProperty") as [shadow|]; [by left |].
  simpl. destruct (registers w !! key) as [flag|] eqn:Hkey; [by left |].
  destruct (assign_cases key false (registers w)) as [->|(_ & _ & ->)].
  - by right.
  - left. apply set_registers_same.
Qed.

Lemma ready_of_cases key w :
  exec (ready_of key) w
  = set_registers (assign key true (registers w)) w
  ∨ (areRegistersReady_of (assign key true (registers w)) = true
     ∧ exec (ready_of key) w
       = set_waitForReadyQueue []
           (append_trace (flush_trace w (waitForReadyQueue w))
              (set_registers (assign key true (registers w)) w))).
Proof.
  unfold exec.
  destruct (areRegistersReady_of (assign key true (registers w))) eqn:Hgate.
  - right. by rewrite ready_of_run_flush.
  - left. rewrite ready_of_run_idle; [done | by left].
Qed.

Lemma step_subscribers_kept w w' event :
  step w w' →
  JsMap.keys (callbacks_of event w) `prefix_of`
    JsMap.keys (callbacks_of event w').
Proof.
  intros Hstep.
  apply step_inv in Hstep
    as [(event' & callback & ->)|[(event' & payload & ->)|[(key & ->)
       |(key & ->)]]].
  - destruct (decide (event' = event)) as [->|Hne].
    + rewrite subscribe_keeps_places. case_decide; [done |].
      by apply prefix_app_r.
    + by rewrite callbacks_of_subscribe_other.
  - by destruct (publish_cases event' payload w) as [[_ ->]|[_ ->]].
  - by destruct (register_cases key w) as [->|[_ ->]].
  - by destruct (ready_of_cases key w) as [->|[_ ->]].
Qed.

Lemma step_trace_grows w w' : step w w' → trace w `prefix_of` trace w'.
Proof.
  intros Hstep.
  apply step_inv in Hstep
    as [(event' & callback & ->)|[(event' & payload & ->)|[(key & ->)
       |(key & ->)]]].
  - by rewrite subscribe_trace.
  - destruct (publish_cases event' payload w) as [[_ ->]|[_ ->]]; simpl;
      [done | by apply prefix_app_r].
  - by destruct (register_cases key w) as [->|[_ ->]].
  - destruct (ready_of_cases key w) as [->|[_ ->]]; simpl;
      [done | by apply prefix_app_r].
Qed.

Lemma step_registers w w' key :
  step w w' →
  (is_Some (registers w !! key) → is_Some (registers w' !! key))
  ∧ (registers w !! key = Some true → registers w' !! key = Some true).
Proof.
  intros Hstep.
  apply step_inv in Hstep
    as [(event' & callback & ->)|[(event' & payload & ->)|[(key' & ->)
       |(key' & ->)]]].
  - by rewrite subscribe_registers.
  - by destruct (publish_cases event' payload w) as [[_ ->]|[_ ->]].
  - destruct (register_cases key' w) as [->|[Hnew ->]]; [done |].
    simpl. destruct (decide (key' = key)) as [->|Hne].
    + rewrite Hnew. split; [by intros [? ?] | done].
    + by rewrite lookup_insert_ne.
  - assert (registers (exec (ready_of key') w)
            = assign key' true (registers w)) as ->.
    { by destruct (ready_of_cases key' w) as [->|[_ ->]]. }
    destruct (assign_cases key' true (registers w)) as [->|(_ & _ & ->)];
      [| done].
    destruct (decide (key' = key)) as [->|Hne].
    + rewrite lookup_insert_eq. split; [by eexists | done].
    + by rewrite lookup_insert_ne.
Qed.

(** ** Invariants along every run (X1 to X5) *)

(** X1. In every state the dispatcher can reach, an open gate means an
    empty pending queue: nothing stays queued once every registered key is
    ready. *)
Theorem open_gate_nothing_pending w :
  reachable w →
  areRegistersReady_of (registers w) = true →
  waitForReadyQueue w = [].
Proof. intros Hreach. apply wf_ready_empty. by apply reachable_wf. Qed.

(** X2. In every reachable state the pending queue has at most one entry
    per event type, and looking an event type up finds that entry. *)
Theorem one_pending_entry_per_event w event payload :
  reachable w →
  (event, payload) ∈ waitForReadyQueue w →
  NoDup (JsMap.keys (waitForReadyQueue w))
  ∧ JsMap.get event (waitForReadyQueue w) = Some payload
  ∧ ∀ payload', (event, payload') ∈ waitForReadyQueue w → payload' = payload.
Proof.
  intros Hreach Hin.
  pose proof (wf_queue _ (reachable_wf _ Hreach)) as Hnd.
  split_and!; [done | by apply JsMap_elem_get |].
  intros payload' Hin'.
  apply (JsMap_elem_get _ _ _ Hnd) in Hin, Hin'. congruence.
Qed.

(** X3. In every reachable state the subscribers of an event type have
    pairwise different source texts, and each is filed under its own
    text. *)
Theorem one_subscriber_per_text w event :
  reachable w →
  NoDup (cb_toString <$> subscribers_of event w)
  ∧ cb_toString <$> subscribers_of event w
    = JsMap.keys (callbacks_of event w)
  ∧ ∀ callback, callback ∈ subscribers_of event w →
      JsMap.get (cb_toString callback) (callbacks_of event w) = Some callback.
Proof.
  intros Hreach.
  destruct (wf_callbacks_of event w (reachable_wf _ Hreach)) as [Hnd Htext].
  assert (cb_toString <$> subscribers_of event w
          = JsMap.keys (callbacks_of event w)) as Htexts.
  { unfold subscribers_of, JsMap.values, JsMap.keys.
    rewrite <- list_fmap_compose. apply Forall_fmap_ext_1, Forall_forall.
    intros [text callback] Hin. simpl. by apply Htext. }
  split_and!; [by rewrite Htexts | done |].
  intros callback Hin. unfold subscribers_of, JsMap.values in Hin.
  apply list_elem_of_fmap in Hin as ([text callback'] & -> & Hin). simpl.
  apply JsMap_elem_get; [done |]. by rewrite (Htext _ _ Hin).
Qed.

(** X4. Nothing unregisters a key or resets its flag: along every run a
    registered key stays registered and a ready key stays ready. *)
Theorem ready_flags_stable w w' key :
  rtc step w w' →
  (is_Some (registers w !! key) → is_Some (registers w' !! key))
  ∧ (registers w !! key = Some true → registers w' !! key = Some true).
Proof.
  intros Hrun. induction Hrun as [w|w w1 w2 Hstep _ IH]; [done |].
  destruct (step_registers w w1 key Hstep) as [Hkept Hready].
  destruct IH as [IHkept IHready]. split; auto.
Qed.

(** X5. Nothing unsubscribes: along every run the texts subscribed to an
    event type keep their places, new ones only being added after them. *)
Theorem subscriptions_kept w w' event :
  rtc step w w' →
  JsMap.keys (callbacks_of event w) `prefix_of`
    JsMap.keys (callbacks_of event w').
Proof.
  intros Hrun. induction Hrun as [w|w w1 w2 Hstep _ IH]; [done |].
  etrans; [by apply step_subscribers_kept | done].
Qed.

(** What was delivered and logged stays, in order, at the front of the
    trace. *)
Lemma trace_only_grows w w' :
  rtc step w w' → trace w `prefix_of` trace w'.
Proof.
  intros Hrun. induction Hrun as [w|w w1 w2 Hstep _ IH]; [done |].
  etrans; [by apply step_trace_grows | done].
Qed.

(** ** The gate, registration and readiness *)

(** X6. The scan of [areRegistersReady] answers [true] exactly when every
    registered key has a true flag, whatever the order of the keys, and it
    changes nothing. *)
Theorem areRegistersReady_scan w :
  ∃ answer,
    areRegistersReady w = (Normal answer, w)
    ∧ (answer = true
       ↔ ∀ key flag, registers w !! key = Some flag → flag = true).
Proof.
  exists (areRegistersReady_of (registers w)). split; [done |].
  rewrite areRegistersReady_of_true. split.
  - intros Hall key [|] Hkey; [done |]. by apply Hall in Hkey.
  - intros Hall key Hkey. by apply Hall in Hkey.
Qed.

(** X7. Registering a key that is not registered yet closes the gate, also
    when it was open: the next publish is queued and calls nobody, until
    that key's [ready()].  This is so for every key but [__proto__], as long
    as no key called [hasOwnProperty] has been registered. *)
Theorem late_registration_closes_gate w key event payload :
  registers w !! "hasOwnProperty" = None →
  key ≠ "__proto__" →
  registers w !! key = None →
  let w1 := exec (register key) w in
  completion (register key) w = Normal {| ready := ready_of key |}
  ∧ registers w1 !! key = Some false
  ∧ areRegistersReady_of (registers w1) = false
  ∧ trace (exec (publish event payload) w1) = trace w
  ∧ waitForReadyQueue (exec (publish event payload) w1)
    = JsMap.set event payload (waitForReadyQueue w).
Proof.
  intros Hmethod Hname Hnew w1.
  assert (register key w
          = (Normal {| ready := ready_of key |},
             set_registers (<[key := false]> (registers w)) w)) as Hrun.
  { rewrite register_run, Hmethod, Hnew. by rewrite assign_ordinary. }
  assert (w1 = set_registers (<[key := false]> (registers w)) w) as Hw1.
  { unfold w1, exec. by rewrite Hrun. }
  assert (areRegistersReady_of (registers w1) = false) as Hclosed.
  { apply areRegistersReady_of_false. exists key.
    rewrite Hw1. simpl. apply lookup_insert_eq. }
  split_and!.
  - unfold completion. by rewrite Hrun.
  - rewrite Hw1. simpl. apply lookup_insert_eq.
  - done.
  - unfold exec at 1. rewrite publish_run_closed; [| done]. by rewrite Hw1.
  - unfold exec at 1. rewrite publish_run_closed; [| done]. by rewrite Hw1.
Qed.

(** X8. [ready()] while another registered key is still not ready only
    makes its own assignment to [registers]: nothing is flushed, the queue,
    the subscribers and the trace stay as they were, and the gate stays
    closed. *)
Theorem ready_waits_for_the_others w key other :
  other ≠ key →
  registers w !! other = Some false →
  ready_of key w
  = (Normal tt, set_registers (assign key true (registers w)) w)
  ∧ (is_Some (registers w !! key) ∨ key ≠ "__proto__" →
     assign key true (registers w) = <[key := true]> (registers w))
  ∧ areRegistersReady_of (registers (exec (ready_of key) w)) = false.
Proof.
  intros Hne Hother.
  assert (areRegistersReady_of (assign key true (registers w)) = false)
    as Hclosed.
  { apply areRegistersReady_of_false. exists other.
    destruct (assign_cases key true (registers w)) as [->|(_ & _ & ->)];
      [| done].
    by rewrite lookup_insert_ne. }
  rewrite ready_of_run_idle; [| by left]. split_and!; [done | |].
  - intros [Hown|Hname]; [by apply assign_own | by apply assign_ordinary].
  - unfold exec. by rewrite ready_of_run_idle; [| by left].
Qed.

(** X9. Calling [ready()] a second time changes nothing and delivers nothing:
    a flush happens at most once per pending payload. *)
Theorem ready_twice w key :
  exec (ready_of key) (exec (ready_of key) w) = exec (ready_of key) w
  ∧ completion (ready_of key) (exec (ready_of key) w) = Normal tt.
Proof.
  assert (ready_of key (exec (ready_of key) w)
          = (Normal tt, exec (ready_of key) w)) as Hrun.
  { unfold exec.
    destruct (areRegistersReady_of (assign key true (registers w)))
      eqn:Hgate.
    - rewrite (ready_of_run_flush key w Hgate). simpl.
      rewrite ready_of_run_idle; [| by right]. simpl.
      unfold set_registers. simpl. by rewrite assign_assign.
    - rewrite (ready_of_run_idle key w); [| by left]. simpl.
      rewrite ready_of_run_idle.
      + unfold set_registers. simpl. by rewrite assign_assign.
      + left. simpl. by rewrite assign_assign. }
  unfold exec at 1, completion. by rewrite Hrun.
Qed.

(** ** Subscribing and publishing together *)

(** X10. Subscribing the same callback to the same event type twice leaves what
    subscribing it once leaves. *)
Theorem subscribe_twice w event callback :
  exec (subscribe event callback) (exec (subscribe event callback) w)
  = exec (subscribe event callback) w.
Proof.
  unfold exec at 1. rewrite subscribe_run, callbacks_of_subscribe.
  unfold exec. rewrite subscribe_run. simpl.
  unfold set_subscribers. simpl. by rewrite !JsMap_set_set.
Qed.

(** X11. What is subscribed is called: with the gate open, a callback that was
    just subscribed to an event type is a subscriber of it, filed under its
    text, and the next publish of that event type calls it with the
    payload. *)
Theorem subscribe_then_publish w event callback payload :
  areRegistersReady_of (registers w) = true →
  let w1 := exec (subscribe event callback) w in
  JsMap.get (cb_toString callback) (callbacks_of event w1) = Some callback
  ∧ callback ∈ subscribers_of event w1
  ∧ completion (publish event payload) w1 = Normal tt
  ∧ Invoked callback payload ∈ trace (exec (publish event payload) w1).
Proof.
  intros Hgate w1.
  assert (JsMap.get (cb_toString callback) (callbacks_of event w1)
          = Some callback) as Hget.
  { unfold w1. rewrite callbacks_of_subscribe. apply JsMap_get_set_eq. }
  assert (callback ∈ subscribers_of event w1) as Hin.
  { unfold subscribers_of, JsMap.values. apply list_elem_of_fmap.
    exists (cb_toString callback, callback).
    split; [done | by apply JsMap_get_Some_elem]. }
  assert (areRegistersReady_of (registers w1) = true) as Hgate1.
  { unfold w1. by rewrite subscribe_registers. }
  split_and!; [done | done | |].
  - unfold completion. by rewrite publish_run_open.
  - unfold exec at 1. rewrite publish_run_open; [| done]. simpl.
    apply elem_of_app. right. by apply Invoked_in_deliveries.
Qed.

(** X12. A callback subscribed while a payload is pending receives it at the
    flush: the flush goes to the subscribers of that moment, not to those
    of the moment of the publish. *)
Theorem late_subscriber_receives_pending w key event payload callback :
  last_not_ready key w →
  let w1 := exec (subscribe event callback) (exec (publish event payload) w) in
  trace w1 = trace w
  ∧ Invoked callback payload ∈ trace (exec (ready_of key) w1)
  ∧ waitForReadyQueue (exec (ready_of key) w1) = [].
Proof.
  intros Hlast w1.
  pose proof (last_not_ready_closed _ _ Hlast) as Hclosed.
  assert (w1 = exec (subscribe event callback)
                 (set_waitForReadyQueue
                    (JsMap.set event payload (waitForReadyQueue w)) w))
    as Hw1.
  { unfold w1. unfold exec at 2. by rewrite publish_run_closed. }
  assert (last_not_ready key w1) as Hlast1.
  { unfold last_not_ready. rewrite Hw1, subscribe_registers. apply Hlast. }
  split_and!.
  - by rewrite Hw1, subscribe_trace.
  - unfold exec at 1. rewrite ready_last_run; [| done]. simpl.
    apply elem_of_app. right.
    apply Invoked_in_flush_trace with (event := event).
    + rewrite Hw1, subscribe_queue. simpl.
      apply JsMap_get_Some_elem, JsMap_get_set_eq.
    + unfold subscribers_of, JsMap.values. apply list_elem_of_fmap.
      exists (cb_toString callback, callback). split; [done |].
      apply JsMap_get_Some_elem. rewrite Hw1, callbacks_of_subscribe.
      apply JsMap_get_set_eq.
  - unfold exec at 1. by rewrite ready_last_run.
Qed.

(** X13. With the gate open, publishing an event type that has no subscriber
    changes nothing at all: the payload is neither delivered nor kept. *)
Theorem publish_without_subscribers w event payload :
  areRegistersReady_of (registers w) = true →
  subscribers_of event w = [] →
  publish event payload w = (Normal tt, w).
Proof.
  intros Hgate Hnone. rewrite publish_run_open; [| done].
  rewrite Hnone. unfold deliveries. simpl. by rewrite append_trace_nil.
Qed.

(** X14. Event types do not interfere: a subscription to one event type and a
    publish of another can be made in either order with the same result,
    and so can any subscription and any publish while the gate is closed. *)
Theorem publish_subscribe_commute w event event' callback payload :
  event ≠ event' ∨ areRegistersReady_of (registers w) = false →
  exec (publish event' payload) (exec (subscribe event callback) w)
  = exec (subscribe event callback) (exec (publish event' payload) w).
Proof.
  intros Hapart.
  destruct (areRegistersReady_of (registers w)) eqn:Hgate.
  - destruct Hapart as [Hne|?]; [| done].
    assert (exec (publish event' payload) (exec (subscribe event callback) w)
            = append_trace (deliveries payload (subscribers_of event' w))
                (exec (subscribe event callback) w)) as ->.
    { unfold exec at 1. rewrite publish_run_open;
        [| by rewrite subscribe_registers].
      simpl. unfold subscribers_of.
      by rewrite callbacks_of_subscribe_other. }
    assert (exec (publish event' payload) w
            = append_trace (deliveries payload (subscribers_of event' w)) w)
      as ->.
    { unfold exec. by rewrite publish_run_open. }
    unfold exec. by rewrite !subscribe_run.
  - assert (exec (publish event' payload) (exec (subscribe event callback) w)
            = set_waitForReadyQueue
                (JsMap.set event' payload (waitForReadyQueue w))
                (exec (subscribe event callback) w)) as ->.
    { unfold exec at 1. rewrite publish_run_closed;
        [| by rewrite subscribe_registers].
      simpl. by rewrite subscribe_queue. }
    assert (exec (publish event' payload) w
            = set_waitForReadyQueue
                (JsMap.set event' payload (waitForReadyQueue w)) w) as ->.
    { unfold exec. by rewrite publish_run_closed. }
    unfold exec. by rewrite !subscribe_run.
Qed.

(** X15. When no subscriber of the event type throws, a publish with the gate
    open writes nothing to [console.error]: the trace grows by one call per
    subscriber, in the order of the table. *)
Theorem publish_without_errors w event payload :
  areRegistersReady_of (registers w) = true →
  (∀ callback, callback ∈ subscribers_of event w →
               cb_call callback payload = Returns) →
  publish event payload w
  = (Normal tt,
     append_trace ((λ callback, Invoked callback payload)
                   <$> subscribers_of event w) w).
Proof.
  intros Hgate Hquiet. rewrite publish_run_open; [| done]. do 2 f_equal.
  induction (subscribers_of event w) as [|callback callbacks IH]; [done |].
  rewrite deliveries_cons, fmap_cons. unfold delivery.
  rewrite (Hquiet callback); [| apply list_elem_of_here]. simpl. f_equal.
  apply IH. intros callback' Hin. apply Hquiet. by apply list_elem_of_further.
Qed.

(** X16. A pending payload leaves the queue in two ways only.  After any
    one call the event type still has that payload pending; or the call was
    a publish of the same event type with the gate closed, and its payload
    has taken the place of the pending one; or the call was a flush: the
    queue is empty and every subscriber of that event type has been handed
    the payload. *)
Theorem pending_leaves_only_by_flush w w' event payload :
  step w w' →
  JsMap.get event (waitForReadyQueue w) = Some payload →
  JsMap.get event (waitForReadyQueue w') = Some payload
  ∨ (∃ payload',
       w' = exec (publish event payload') w
       ∧ areRegistersReady_of (registers w) = false
       ∧ JsMap.get event (waitForReadyQueue w') = Some payload')
  ∨ (waitForReadyQueue w' = []
     ∧ trace w' = trace w ++ flush_trace w (waitForReadyQueue w)
     ∧ ∀ callback, callback ∈ subscribers_of event w →
                   Invoked callback payload ∈ trace w').
Proof.
  intros Hstep Hpending.
  apply step_inv in Hstep
    as [(event' & callback & ->)|[(event' & payload' & ->)|[(key & ->)
       |(key & ->)]]].
  - left. by rewrite subscribe_queue.
  - destruct (publish_cases event' payload' w) as [[Hclosed Hrun]|[_ ->]];
      [| by left].
    destruct (decide (event' = event)) as [->|Hne].
    + right. left. exists payload'. split_and!; [done | done |].
      rewrite Hrun. simpl. apply JsMap_get_set_eq.
    + left. rewrite Hrun. simpl. by rewrite JsMap_get_set_ne.
  - left. by destruct (register_cases key w) as [->|[_ ->]].
  - destruct (ready_of_cases key w) as [->|[_ ->]]; simpl.
    + by left.
    + right. right. split_and!; [done | done |].
      intros callback Hin. apply elem_of_app. right.
      apply Invoked_in_flush_trace with (event := event); [| done].
      by apply JsMap_get_Some_elem.
Qed.

(** ** What a run accounts for *)

Lemma run_snoc (actions : list (Action Payload)) action :
  run (actions ++ [action]) = exec (perform action) (run actions).
Proof. unfold run, run_from. by rewrite foldl_snoc. Qed.

Lemma exec_perform_register key w :
  exec (perform (Register key)) w = exec (register key) w.
Proof.
  unfold exec. simpl. unfold bind, ret. by destruct (register key w) as [[]].
Qed.

Lemma subscribers_of_elem event callback w :
  callback ∈ subscribers_of event w →
  ∃ text, (text, callback) ∈ callbacks_of event w.
Proof.
  unfold subscribers_of, JsMap.values. intros Hin.
  apply list_elem_of_fmap in Hin as ([text callback'] & -> & Hin).
  by exists text.
Qed.

(** Whatever is pending was published, whoever is subscribed was
    subscribed, and whatever was delivered was published to an event type
    the receiving callback was subscribed to. *)
Lemma run_accounted (actions : list (Action Payload)) :
  (∀ event payload,
     (event, payload) ∈ waitForReadyQueue (run actions) →
     Publish event payload ∈ actions)
  ∧ (∀ event text callback,
       (text, callback) ∈ callbacks_of event (run actions) →
       Subscribe event callback ∈ actions)
  ∧ (∀ callback payload,
       Invoked callback payload ∈ trace (run actions) →
       ∃ event, Publish event payload ∈ actions
                ∧ Subscribe event callback ∈ actions).
Proof.
  induction actions as [|action actions (IHq & IHs & IHt)] using rev_ind.
  - split_and!; simpl; intros; by apply elem_of_nil in H.
  - assert (∀ a : Action Payload, a ∈ actions → a ∈ actions ++ [action])
      as Hold.
    { intros a Ha. apply elem_of_app. by left. }
    assert (action ∈ actions ++ [action]) as Hnew.
    { apply elem_of_app. right. apply list_elem_of_here. }
    assert (∀ callback payload,
              Invoked callback payload ∈ trace (run actions) →
              ∃ event, Publish event payload ∈ actions ++ [action]
                       ∧ Subscribe event callback ∈ actions ++ [action])
      as IHt'.
    { intros callback payload Hin.
      destruct (IHt _ _ Hin) as (event & Hp & Hs). exists event. auto. }
    rewrite run_snoc. set (w := run actions) in *.
    destruct action as [event0 callback0|event0 payload0|key|key].
    + cbn [perform]. split_and!.
      * intros event payload. rewrite subscribe_queue. auto.
      * intros event text callback Hin.
        destruct (decide (event0 = event)) as [->|Hne].
        -- rewrite callbacks_of_subscribe in Hin.
           apply JsMap_elem_set in Hin as [[= _ ->]|Hin]; [done | eauto].
        -- rewrite callbacks_of_subscribe_other in Hin; [eauto | done].
      * intros callback payload. rewrite subscribe_trace. auto.
    + cbn [perform].
      destruct (publish_cases event0 payload0 w) as [[_ ->]|[_ ->]].
      * split_and!; simpl; [| eauto | auto].
        intros event payload Hin.
        apply JsMap_elem_set in Hin as [[= -> ->]|Hin]; [done | eauto].
      * split_and!; simpl; [eauto | eauto |].
        intros callback payload Hin.
        apply elem_of_app in Hin as [Hin|Hin]; [auto |].
        apply Invoked_of_deliveries in Hin as [-> Hin].
        apply subscribers_of_elem in Hin as [text Hin].
        exists event0. split; [done | eauto].
    + rewrite exec_perform_register.
      destruct (register_cases key w) as [->|[_ ->]];
        split_and!; simpl; eauto.
    + cbn [perform].
      destruct (ready_of_cases key w) as [->|[_ ->]].
      * split_and!; simpl; eauto.
      * split_and!; simpl; [| eauto |].
        -- intros event payload Hin. by apply elem_of_nil in Hin.
        -- intros callback payload Hin.
           apply elem_of_app in Hin as [Hin|Hin]; [auto |].
           apply Invoked_of_flush_trace in Hin as (event & Hentry & Hin).
           apply subscribers_of_elem in Hin as [text Hin].
           exists event. split; eauto.
Qed.

(** X17. No spurious delivery: in any run from the initial state, a callback is
    only ever called with a payload that was published to an event type the
    callback was subscribed to. *)
Theorem only_published_payloads_are_delivered
    (actions : list (Action Payload)) callback payload :
  Invoked callback payload ∈ trace (run actions) →
  ∃ event, Publish event payload ∈ actions
           ∧ Subscribe event callback ∈ actions.
Proof. apply run_accounted. Qed.

(** X18. In any run from the initial state, every pending entry is a payload
    that was published under that event type. *)
Theorem pending_was_published (actions : list (Action Payload))
    event payload :
  (event, payload) ∈ waitForReadyQueue (run actions) →
  Publish event payload ∈ actions.
Proof. apply run_accounted. Qed.

End DispatcherFacts.

(** ** The context hook (C2) *)

Section HookFacts.
Context {Payload Cart Shop : Type}.

(** The hook throws only when the value it reads from the context is
    [undefined] or [null]. *)
Lemma useAnalyticsProvider_throws_iff
    (providers : list (JsValue (AnalyticsContextValue Payload Cart Shop))) :
  (∃ error, useAnalyticsProvider providers = Abrupt error)
  ↔ head providers = Some Undefined ∨ head providers = Some Null.
Proof.
  unfold useAnalyticsProvider, useContext.
  destruct providers as [|[| |object] providers]; simpl.
  - split; [by intros [error Hthrow] | by intros [?|?]].
  - split; [by left | by eexists].
  - split; [by right | by eexists].
  - split; [by intros [error Hthrow] | by intros [?|?]].
Qed.

(** C2 (what the code does).  Called in a component that no
    [AnalyticsProvider] encloses, [useAnalyticsProvider] does not throw: it
    reads the default value the context was created with, which is an
    object, and returns it.  Under an [AnalyticsProvider] it returns the
    provider's value.  So the [throw] of the hook is never reached. *)
Theorem useAnalyticsProvider_outside_provider :
  useAnalyticsProvider [] = Normal (@defaultAnalyticsContext Payload Cart Shop)
  ∧ (∀ error, @useAnalyticsProvider Payload Cart Shop [] ≠ Abrupt error)
  ∧ (∀ track current previous custom resolved
       (enclosing : list (JsValue (AnalyticsContextValue Payload Cart Shop))),
       ∃ value,
         useAnalyticsProvider
           (provider_value track current previous custom resolved
            :: enclosing)
         = Normal value).
Proof.
  split_and!; [done | by intros error |].
  intros track current previous custom resolved enclosing. by eexists.
Qed.

(** X19. Outside every [AnalyticsProvider] the hook hands out the default
    context, whose functions do nothing: publishing, subscribing,
    registering and calling the [ready] it returns leave the dispatcher as
    it was, so nothing published through it is ever delivered or queued,
    and its [canTrack] answers [false]. *)
Theorem outside_provider_nothing_happens
    (context : AnalyticsContextValue Payload Cart Shop) :
  useAnalyticsProvider [] = Normal context →
  canTrack context tt = false
  ∧ (∀ event payload w, ctx_publish context event payload w = (Normal tt, w))
  ∧ (∀ event callback w,
       ctx_subscribe context event callback w = (Normal tt, w))
  ∧ (∀ key w,
       ∃ registration,
         ctx_register context key w = (Normal registration, w)
         ∧ ∀ w', ready registration w' = (Normal tt, w'))
  ∧ (∀ event callback payload w,
       exec (ctx_publish context event payload)
         (exec (ctx_subscribe context event callback) w) = w).
Proof.
  intros [= <-]. split_and!; try done.
  intros key w. by eexists.
Qed.

(** X20. The dispatcher is one for the whole module: whatever providers two
    components sit under, a callback subscribed through the context of the
    one is called by a publish through the context of the other (gate
    open), and a key registered through the one closes the gate for
    publishes through the other (a key that is new and not [__proto__],
    while no key called [hasOwnProperty] is registered). *)
Theorem providers_share_the_dispatcher
    (value1 value2 : AnalyticsContextValue Payload Cart Shop)
    track1 current1 previous1 custom1 resolved1 enclosing1
    track2 current2 previous2 custom2 resolved2 enclosing2
    (w : World Payload) event callback payload key :
  useAnalyticsProvider
    (provider_value track1 current1 previous1 custom1 resolved1
     :: enclosing1) = Normal value1 →
  useAnalyticsProvider
    (provider_value track2 current2 previous2 custom2 resolved2
     :: enclosing2) = Normal value2 →
  (areRegistersReady_of (registers w) = true →
   Invoked callback payload
   ∈ trace (exec (ctx_publish value2 event payload)
              (exec (ctx_subscribe value1 event callback) w)))
  ∧ (registers w !! "hasOwnProperty" = None →
     key ≠ "__proto__" →
     registers w !! key = None →
     exec (ctx_publish value2 event payload)
       (exec (ctx_register value1 key) w)
     = set_waitForReadyQueue
         (JsMap.set event payload (waitForReadyQueue w))
         (set_registers (<[key := false]> (registers w)) w)).
Proof.
  intros [= <-] [= <-]. simpl. split.
  - intros Hgate. unfold exec at 1. rewrite publish_run_open.
    + simpl. apply elem_of_app. right. apply Invoked_in_deliveries.
      unfold subscribers_of, JsMap.values. apply list_elem_of_fmap.
      exists (cb_toString callback, callback). split; [done |].
      apply JsMap_get_Some_elem. rewrite callbacks_of_subscribe.
      apply JsMap_get_set_eq.
    + by rewrite subscribe_registers.
  - intros Hmethod Hname Hnew.
    assert (exec (register key) w
            = set_registers (<[key := false]> (registers w)) w) as ->.
    { unfold exec. rewrite register_run, Hmethod, Hnew.
      by rewrite assign_ordinary. }
    unfold exec. rewrite publish_run_closed; [done |].
    apply areRegistersReady_of_false. exists key. simpl.
    apply lookup_insert_eq.
Qed.


End HookFacts.

(** * The properties at concrete inputs *)

Lemma queue_then_flush_witness :
  (∃ key0, registers Sample.waiting !! key0 = Some false)
  ∧ last_not_ready "shopify"
      (exec (publish "page_viewed" "/home") Sample.waiting)
  ∧ completion (register "shopify") initial_world
    = Normal {| ready := ready_of (Payload := string) "shopify" |}
  ∧ trace (exec (ready_of "shopify")
             (exec (publish "page_viewed" "/home") Sample.waiting))
    = [Invoked Sample.faulty "/home";
       ConsoleError "Analytics publish error" (ArgMessage "boom");
       Invoked Sample.tracker "/home"].
Proof.
  assert (∃ key0, registers Sample.waiting !! key0 = Some false) as Hclosed.
  { exists "shopify". reflexivity. }
  assert (last_not_ready "shopify"
            (exec (publish "page_viewed" "/home") Sample.waiting)) as Hlast.
  { apply last_not_ready_singleton. reflexivity. }
  split_and!; [done | done | reflexivity |].
  destruct (queue_then_flush Sample.waiting
              (exec (publish "page_viewed" "/home") Sample.waiting)
              initial_world "page_viewed" "/home" "shopify"
              {| ready := ready_of "shopify" |} Hclosed Hlast eq_refl)
    as (_ & (_ & Htrace & _) & _).
  simpl in Htrace. rewrite Htrace. reflexivity.
Defined.

Lemma overwrite_keeps_latest_witness :
  (∃ key0, registers Sample.waiting !! key0 = Some false)
  ∧ NoDup (JsMap.keys (waitForReadyQueue Sample.waiting))
  ∧ last_not_ready "shopify" Sample.waiting
  ∧ waitForReadyQueue
      (exec (publish "page_viewed" "/b")
         (exec (publish "page_viewed" "/a") Sample.waiting))
    = [("page_viewed", "/b")]
  ∧ trace (exec (ready_of "shopify")
             (exec (publish "page_viewed" "/b")
                (exec (publish "page_viewed" "/a") Sample.waiting)))
    = [Invoked Sample.faulty "/b";
       ConsoleError "Analytics publish error" (ArgMessage "boom");
       Invoked Sample.tracker "/b"].
Proof.
  assert (∃ key0, registers Sample.waiting !! key0 = Some false) as Hclosed.
  { exists "shopify". reflexivity. }
  assert (NoDup (JsMap.keys (waitForReadyQueue Sample.waiting))) as Hnd.
  { apply NoDup_nil_2. }
  assert (last_not_ready "shopify" Sample.waiting) as Hlast.
  { apply last_not_ready_singleton. reflexivity. }
  split_and!; [done | done | done | |];
    destruct (overwrite_keeps_latest Sample.waiting initial_world
                "page_viewed" "/a" "/b" "shopify"
                {| ready := ready_of "shopify" |} Hclosed Hnd eq_refl)
      as (_ & _ & Hsame & _ & _ & Hflush).
  - rewrite Hsame. reflexivity.
  - destruct (Hflush Hlast) as (Htrace & _). simpl in Htrace.
    rewrite Htrace. reflexivity.
Defined.

Lemma error_isolation_witness :
  subscribers_of "page_viewed" Sample.open
  = [] ++ Sample.faulty :: [Sample.tracker]
  ∧ cb_call Sample.faulty "/home" = Raises (ErrorObject "boom")
  ∧ publishEvent "page_viewed" "/home" Sample.open
    = (Normal tt,
       append_trace
         [Invoked Sample.faulty "/home";
          ConsoleError "Analytics publish error" (ArgMessage "boom");
          Invoked Sample.tracker "/home"] Sample.open)
  ∧ completion (publish "page_viewed" "/home") Sample.open = Normal tt.
Proof.
  split_and!; [reflexivity | reflexivity | |];
    destruct (error_isolation Sample.open "page_viewed" "/home" []
                [Sample.tracker] Sample.faulty (ErrorObject "boom")
                eq_refl eq_refl) as (Hrun & _ & Hpublish & _).
  - exact Hrun.
  - exact Hpublish.
Defined.

Lemma register_idempotent_witness :
  registers Sample.waiting !! "hasOwnProperty" = None
  ∧ registers Sample.waiting !! "shopify" = Some false
  ∧ ∃ registration,
      register "shopify" Sample.waiting = (Normal registration, Sample.waiting)
      ∧ registers (exec (register "shopify") Sample.waiting) !! "shopify"
        = Some false
      ∧ registers (exec (ready registration) Sample.waiting) !! "shopify"
        = Some true.
Proof.
  split_and!; [reflexivity | reflexivity |].
  destruct (register_idempotent Sample.waiting "shopify" false eq_refl
              eq_refl)
    as (registration & Hrun & Hflag & _ & Hready & _).
  exists registration. split_and!; [done | done |].
  destruct (Hready Sample.waiting) as [_ Hmarked]. apply Hmarked.
  left. by eexists.
Defined.

Lemma vacuous_readiness_witness :
  registers Sample.open = ∅
  ∧ reachable (@initial_world string)
  ∧ publish "page_viewed" "/home" Sample.open
    = (Normal tt,
       append_trace
         [Invoked Sample.faulty "/home";
          ConsoleError "Analytics publish error" (ArgMessage "boom");
          Invoked Sample.tracker "/home"] Sample.open)
  ∧ waitForReadyQueue (exec (publish "page_viewed" "/home") Sample.open) = []
  ∧ waitForReadyQueue (exec (publish "page_viewed" "/home") initial_world)
    = [].
Proof.
  assert (reachable (@initial_world string)) as Hreach.
  { apply rtc_refl. }
  split_and!; [reflexivity | done | | |].
  - destruct (vacuous_readiness Sample.open "page_viewed" "/home" eq_refl)
      as (_ & Hrun & _). exact Hrun.
  - destruct (vacuous_readiness Sample.open "page_viewed" "/home" eq_refl)
      as (_ & _ & Hqueue & _). exact Hqueue.
  - destruct (vacuous_readiness initial_world "page_viewed" "/home" eq_refl)
      as (_ & _ & _ & Hqueue). by apply Hqueue.
Defined.

Lemma flush_order_witness :
  last_not_ready "shopify" Sample.waiting
  ∧ ("page_viewed"
     ∉ JsMap.keys (waitForReadyQueue Sample.waiting)
       ++ (@nil (string * string)).*1)
  ∧ ("cart_updated"
     ∉ JsMap.keys (waitForReadyQueue Sample.waiting)
       ++ (@nil (string * string)).*1
       ++ "page_viewed" :: [("page_viewed", "/b")].*1)
  ∧ JsMap.keys
      (waitForReadyQueue
         (exec (publish_all
                  [("page_viewed", "/a"); ("page_viewed", "/b");
                   ("cart_updated", "cart-1"); ("page_viewed", "/c")])
            Sample.waiting))
    = ["page_viewed"; "cart_updated"]
  ∧ ∃ q1 q2 q3,
      trace (exec (ready_of "shopify")
               (exec (publish_all
                        [("page_viewed", "/a"); ("page_viewed", "/b");
                         ("cart_updated", "cart-1"); ("page_viewed", "/c")])
                  Sample.waiting))
      = [] ++ flush_trace Sample.waiting q1
        ++ [Invoked Sample.faulty "/c";
            ConsoleError "Analytics publish error" (ArgMessage "boom");
            Invoked Sample.tracker "/c"]
        ++ flush_trace Sample.waiting q2
        ++ [Invoked Sample.cart_logger "cart-1"]
        ++ flush_trace Sample.waiting q3.
Proof.
  assert (last_not_ready "shopify" Sample.waiting) as Hlast.
  { apply last_not_ready_singleton. reflexivity. }
  assert ("page_viewed"
          ∉ JsMap.keys (waitForReadyQueue Sample.waiting)
            ++ (@nil (string * string)).*1) as H1.
  { apply not_elem_of_nil. }
  assert ("cart_updated"
          ∉ JsMap.keys (waitForReadyQueue Sample.waiting)
            ++ (@nil (string * string)).*1
            ++ "page_viewed" :: [("page_viewed", "/b")].*1) as H2.
  { simpl. rewrite !not_elem_of_cons. split_and!; [done | done |].
    apply not_elem_of_nil. }
  split_and!; [done | done | done | |];
    destruct (flush_order Sample.waiting initial_world
                [] [("page_viewed", "/b")] [("page_viewed", "/c")]
                "page_viewed" "cart_updated" "/a" "cart-1" "shopify"
                {| ready := ready_of "shopify" |} Hlast eq_refl H1 H2)
      as (Hkeys & q1 & q2 & q3 & p1 & p2 & _ & Hp1 & Hp2 & Htrace & _).
  - exact Hkeys.
  - exists q1, q2, q3. injection Hp1 as <-. injection Hp2 as <-.
    exact Htrace.
Defined.

Lemma delivery_follows_registration_witness :
  areRegistersReady_of (registers (@initial_world string)) = true
  ∧ cb_toString Sample.faulty ≠ cb_toString Sample.tracker
  ∧ (cb_toString Sample.tracker
     ∉ JsMap.keys (callbacks_of "page_viewed" (@initial_world string)))
  ∧ trace (exec (publish "page_viewed" "/home")
             (exec (subscribe "page_viewed" Sample.tracker)
                (exec (subscribe "page_viewed" Sample.faulty)
                   initial_world)))
    = [Invoked Sample.faulty "/home";
       ConsoleError "Analytics publish error" (ArgMessage "boom");
       Invoked Sample.tracker "/home"].
Proof.
  assert (areRegistersReady_of (registers (@initial_world string)) = true)
    as Hgate.
  { apply areRegistersReady_of_empty. }
  assert (cb_toString Sample.faulty ≠ cb_toString Sample.tracker) as Htexts.
  { simpl. discriminate. }
  assert (cb_toString Sample.tracker
          ∉ JsMap.keys (callbacks_of "page_viewed" (@initial_world string)))
    as Hfresh.
  { apply not_elem_of_nil. }
  split_and!; [done | done | done |].
  destruct (delivery_follows_registration initial_world "page_viewed"
              Sample.faulty Sample.tracker "/home" Hgate Htexts Hfresh)
    as (_ & _ & Hfirst & _).
  destruct (Hfirst eq_refl) as (_ & Htrace). exact Htrace.
Defined.

Lemma subscribe_collision_witness :
  wf (exec (subscribe "page_viewed" Sample.tracker) initial_world)
  ∧ JsMap.get (cb_toString Sample.tracker_twin)
      (callbacks_of "page_viewed"
         (exec (subscribe "page_viewed" Sample.tracker) initial_world))
    = Some Sample.tracker
  ∧ JsMap.get (cb_toString Sample.tracker_twin)
      (callbacks_of "page_viewed"
         (exec (subscribe "page_viewed" Sample.tracker_twin)
            (exec (subscribe "page_viewed" Sample.tracker) initial_world)))
    = Some Sample.tracker_twin
  ∧ length
      (subscribers_of "page_viewed"
         (exec (subscribe "page_viewed" Sample.tracker_twin)
            (exec (subscribe "page_viewed" Sample.tracker) initial_world)))
    = 1
  ∧ Sample.tracker
    ∉ subscribers_of "page_viewed"
        (exec (subscribe "page_viewed" Sample.tracker_twin)
           (exec (subscribe "page_viewed" Sample.tracker) initial_world)).
Proof.
  assert (wf (exec (subscribe "page_viewed" Sample.tracker) initial_world))
    as Hwf.
  { apply reachable_wf, rtc_once, step_subscribe. }
  split_and!; [done | reflexivity | | |];
    destruct (subscribe_collision
                (exec (subscribe "page_viewed" Sample.tracker) initial_world)
                "page_viewed" Sample.tracker Sample.tracker_twin Hwf eq_refl)
      as (_ & Hlength & Hget & _ & Hgone & _).
  - exact Hget.
  - exact Hlength.
  - apply Hgone. discriminate.
Defined.

Lemma flush_discards_unsubscribed_witness :
  last_not_ready "shopify" Sample.pending
  ∧ waitForReadyQueue Sample.pending = [] ++ ("product_viewed", "sku-1") :: []
  ∧ subscribers_of "product_viewed" Sample.pending = []
  ∧ waitForReadyQueue (exec (ready_of "shopify") Sample.pending) = []
  ∧ trace (exec (ready_of "shopify") Sample.pending) = []
  ∧ trace (exec (publish "product_viewed" "sku-2")
             (exec (subscribe "product_viewed" Sample.tracker)
                (exec (ready_of "shopify") Sample.pending)))
    = [Invoked Sample.tracker "sku-2"].
Proof.
  assert (last_not_ready "shopify" Sample.pending) as Hlast.
  { apply last_not_ready_singleton. reflexivity. }
  split_and!; [done | reflexivity | reflexivity | | |];
    destruct (flush_discards_unsubscribed Sample.pending initial_world
                "shopify" {| ready := ready_of "shopify" |}
                "product_viewed" "sku-1" [] [] Hlast eq_refl eq_refl eq_refl)
      as (_ & Hqueue & Htrace & _ & Hlate).
  - exact Hqueue.
  - exact Htrace.
  - destruct (Hlate Sample.tracker) as (_ & _ & Hnext).
    refine (eq_trans (Hnext "sku-2") _).
    refine (eq_trans (f_equal (λ t, t ++ _) Htrace) _). reflexivity.
Defined.

(** C8 as stated fails: [tracker_twin], then [faulty], then [tracker] are
    subscribed to page views.  [tracker] has the text of [tracker_twin] and
    takes its place, the first one.  Both [faulty] and [tracker] are
    subscribers, [faulty] was subscribed before [tracker], and yet the
    publish calls [tracker] first. *)
Lemma delivery_order_counterexample :
  areRegistersReady_of (registers Sample.collided) = true
  ∧ subscribers_of "page_viewed" Sample.collided
    = [Sample.tracker; Sample.faulty]
  ∧ trace (exec (publish "page_viewed" "/home") Sample.collided)
    = [Invoked Sample.tracker "/home";
       Invoked Sample.faulty "/home";
       ConsoleError "Analytics publish error" (ArgMessage "boom")]
  ∧ called_before "/home" Sample.tracker Sample.faulty
      (trace (exec (publish "page_viewed" "/home") Sample.collided))
  ∧ ¬ called_before "/home" Sample.faulty Sample.tracker
        (trace (exec (publish "page_viewed" "/home") Sample.collided)).
Proof.
  assert (trace (exec (publish "page_viewed" "/home") Sample.collided)
          = [Invoked Sample.tracker "/home";
             Invoked Sample.faulty "/home";
             ConsoleError "Analytics publish error" (ArgMessage "boom")])
    as Htrace by reflexivity.
  split_and!; [reflexivity | reflexivity | done | |]; rewrite Htrace.
  - exists 0, 1. split_and!; [lia | done | done].
  - intros (i & j & Hlt & Hi & Hj).
    destruct j as [|[|[|j]]]; simpl in Hj; [lia | discriminate ..].
Qed.

(** * The consent detector and the provider's tracking state *)

(** X21. [shopifyCanTrack] answers [true] exactly when the page has a [window]
    with [Shopify.customerPrivacy.userCanBeTracked] all the way down and that
    function answers [true]; a missing or [null] link anywhere gives
    [false]. *)
Theorem shopifyCanTrack_true_iff (window : option Window) :
  shopifyCanTrack window = true
  ↔ ∃ host api privacy detector,
      window = Some host
      ∧ Shopify host = Present api
      ∧ customerPrivacy api = Present privacy
      ∧ userCanBeTracked privacy = Present detector
      ∧ detector tt = true.
Proof.
  split.
  - destruct window as [[[| |[[| |[[| |detector]]]]]]|]; simpl; try done.
    intros Hyes. by eexists _, _, _, detector.
  - intros (host & api & privacy & detector & -> & Hapi & Hprivacy
            & Hdetector & Hyes).
    unfold shopifyCanTrack. rewrite Hapi. simpl. rewrite Hprivacy. simpl.
    by rewrite Hdetector.
Qed.

Lemma signal_keeps_listeners (detail : bool) (c : Consent) (n : nat) :
  listenerSet (Nat.iter n (on_customerPrivacyApiLoaded detail) c)
  = listenerSet c
  ∧ listeners (Nat.iter n (on_customerPrivacyApiLoaded detail) c)
    = listeners c.
Proof.
  induction n as [|n [IHset IHcount]]; [done |]. simpl.
  unfold on_customerPrivacyApiLoaded at 1 3. by destruct detail.
Qed.

Lemma happen_listener_count (c : Consent) (h : Happening) :
  listeners c = (if listenerSet c then 1 else 0) →
  listeners (happen c h) = (if listenerSet (happen c h) then 1 else 0).
Proof.
  intros Hcount. destruct h as [[custom|]|detail]; simpl.
  - done.
  - unfold effect. destruct (listenerSet c) eqn:Hset; [by rewrite Hset |].
    simpl. by rewrite Hcount.
  - by destruct (signal_keeps_listeners detail c (listeners c)) as [-> ->].
Qed.

Lemma life_snoc custom (happenings : list Happening) h :
  provider_life custom (happenings ++ [h])
  = happen (provider_life custom happenings) h.
Proof. unfold provider_life. by rewrite foldl_snoc. Qed.

Lemma life_listener_count custom (happenings : list Happening) :
  listeners (provider_life custom happenings)
  = if listenerSet (provider_life custom happenings) then 1 else 0.
Proof.
  induction happenings as [|h happenings IH] using rev_ind.
  - unfold provider_life. simpl. by destruct custom.
  - rewrite life_snoc. by apply happen_listener_count.
Qed.

(** X22. Whatever the provider is rendered with and however often, it puts at
    most one [customerPrivacyApiLoaded] listener on the document, and it has
    put one exactly when its [listenerSet] ref is set. *)
Theorem one_listener_at_most custom (happenings : list Happening) :
  listeners (provider_life custom happenings) ≤ 1
  ∧ (listeners (provider_life custom happenings) = 1
     ↔ listenerSet (provider_life custom happenings) = true).
Proof.
  rewrite life_listener_count.
  destruct (listenerSet (provider_life custom happenings)); split;
    try lia; split; done.
Qed.

(** X23. A [canTrack] prop given at the first render and at every later one is
    permanent: the provider attaches no listener, consent signals change
    nothing, and the tracking function stays the one of the first render,
    also when a later render passes another function. *)
Theorem override_is_permanent (custom : unit → bool)
    (happenings : list Happening) :
  (∀ prop, Rendered prop ∈ happenings → is_Some prop) →
  provider_life (Some custom) happenings
  = {| listenerSet := false; consentLoaded := true;
       canTrackState := CustomTrack custom; listeners := 0 |}.
Proof.
  induction happenings as [|h happenings IH] using rev_ind; [done |].
  intros Hprops. rewrite life_snoc, IH.
  - destruct h as [[later|]|detail]; [done | | done].
    destruct (Hprops None) as [? ?]; [| done].
    apply elem_of_app. right. apply list_elem_of_here.
  - intros prop Hin. apply Hprops, elem_of_app. by left.
Qed.

(** X24. Without a [canTrack] prop at the first render the listener is attached
    at once and for good.  From then on a consent signal decides: a falsy
    detail makes the tracking function the constant [false], whatever the
    page says, a truthy one makes it [shopifyCanTrack]; a later render
    changes nothing, so a [canTrack] prop that only arrives later is never
    used. *)
Theorem consent_signal_decides (happenings : list Happening) :
  listeners (provider_life None happenings) = 1
  ∧ (∀ detail,
       canTrackState (provider_life None (happenings ++ [ConsentSignal detail]))
       = (if detail then ShopifyTrack else NeverTrack)
       ∧ consentLoaded
           (provider_life None (happenings ++ [ConsentSignal detail]))
         = detail)
  ∧ (∀ prop,
       provider_life None (happenings ++ [Rendered prop])
       = provider_life None happenings)
  ∧ (∀ window,
       track (canTrackState
                (provider_life None (happenings ++ [ConsentSignal false])))
         window = false)
  ∧ ∀ custom, canTrackState (provider_life None happenings)
              ≠ CustomTrack custom.
Proof.
  assert (∀ hs, listenerSet (provider_life None hs) = true) as Hset.
  { intros hs. induction hs as [|h hs IH] using rev_ind; [done |].
    rewrite life_snoc. destruct h as [[later|]|detail]; simpl.
    - done.
    - unfold effect. by rewrite IH.
    - by destruct (signal_keeps_listeners detail (provider_life None hs)
                     (listeners (provider_life None hs))) as [-> _]. }
  assert (∀ hs, listeners (provider_life None hs) = 1) as Hone.
  { intros hs. by rewrite life_listener_count, Hset. }
  assert (∀ hs custom,
            canTrackState (provider_life None hs) ≠ CustomTrack custom)
    as Hnever.
  { intros hs custom. induction hs as [|h hs IH] using rev_ind; [done |].
    rewrite life_snoc. destruct h as [[later|]|detail]; simpl.
    - done.
    - unfold effect. by rewrite Hset.
    - rewrite Hone. simpl. by destruct detail. }
  assert (∀ detail,
            canTrackState
              (provider_life None (happenings ++ [ConsentSignal detail]))
            = (if detail then ShopifyTrack else NeverTrack)
            ∧ consentLoaded
                (provider_life None (happenings ++ [ConsentSignal detail]))
              = detail) as Hsignal.
  { intros detail. rewrite life_snoc. simpl. rewrite Hone. simpl.
    by destruct detail. }
  split_and!; [done | done | | |].
  - intros prop. rewrite life_snoc. destruct prop as [later|]; simpl;
      [done |]. unfold effect. by rewrite Hset.
  - intros window. by destruct (Hsignal false) as [-> _].
  - intros custom. apply Hnever.
Qed.

(** * The further properties at concrete inputs *)

Lemma sample_run_steps :
  step SampleRuns.registered SampleRuns.subscribed
  ∧ step SampleRuns.subscribed SampleRuns.queued
  ∧ step SampleRuns.queued SampleRuns.flushed.
Proof.
  split_and!.
  - apply (step_subscribe "page_viewed" Sample.tracker SampleRuns.registered).
  - apply (step_publish "page_viewed" "/a" SampleRuns.subscribed).
  - apply (step_ready "shopify" initial_world
             {| ready := ready_of "shopify" |} SampleRuns.queued);
      [reflexivity | by eexists].
Qed.

Lemma sample_run_reachable :
  reachable SampleRuns.queued ∧ reachable SampleRuns.flushed.
Proof.
  destruct sample_run_steps as (Hs & Hp & Hr).
  assert (reachable SampleRuns.queued) as Hqueued.
  { eapply reachable_step; [| exact Hp].
    eapply reachable_step; [| exact Hs].
    eapply reachable_step; [apply rtc_refl |].
    apply (step_register "shopify" initial_world). }
  split; [done |]. by eapply reachable_step.
Qed.

Lemma open_gate_nothing_pending_witness :
  reachable SampleRuns.flushed
  ∧ areRegistersReady_of (registers SampleRuns.flushed) = true
  ∧ waitForReadyQueue SampleRuns.flushed = [].
Proof.
  destruct sample_run_reachable as [_ Hreach].
  split_and!; [done | reflexivity |].
  apply (open_gate_nothing_pending SampleRuns.flushed Hreach). reflexivity.
Defined.

Lemma one_pending_entry_per_event_witness :
  reachable SampleRuns.queued
  ∧ ("page_viewed", "/a") ∈ waitForReadyQueue SampleRuns.queued
  ∧ JsMap.get "page_viewed" (waitForReadyQueue SampleRuns.queued)
    = Some "/a".
Proof.
  destruct sample_run_reachable as [Hreach _].
  assert (("page_viewed", "/a") ∈ waitForReadyQueue SampleRuns.queued)
    as Hin.
  { apply list_elem_of_here. }
  split_and!; [done | done |].
  by destruct (one_pending_entry_per_event SampleRuns.queued
                 "page_viewed" "/a" Hreach Hin) as (_ & Hget & _).
Defined.

Lemma one_subscriber_per_text_witness :
  reachable SampleRuns.queued
  ∧ NoDup (cb_toString <$> subscribers_of "page_viewed" SampleRuns.queued)
  ∧ JsMap.get (cb_toString Sample.tracker)
      (callbacks_of "page_viewed" SampleRuns.queued)
    = Some Sample.tracker.
Proof.
  destruct sample_run_reachable as [Hreach _].
  destruct (one_subscriber_per_text SampleRuns.queued "page_viewed" Hreach)
    as (Hnd & _ & Hfiled).
  split_and!; [done | done |].
  apply Hfiled. apply list_elem_of_here.
Defined.

Lemma ready_flags_stable_witness :
  rtc step SampleRuns.registered SampleRuns.flushed
  ∧ is_Some (registers SampleRuns.registered !! "shopify")
  ∧ is_Some (registers SampleRuns.flushed !! "shopify").
Proof.
  destruct sample_run_steps as (Hs & Hp & Hr).
  assert (rtc step SampleRuns.registered SampleRuns.flushed) as Hrun.
  { eapply rtc_l; [exact Hs |]. eapply rtc_l; [exact Hp |].
    by apply rtc_once. }
  assert (is_Some (registers SampleRuns.registered !! "shopify")) as Hkey.
  { by eexists. }
  split_and!; [done | done |].
  destruct (ready_flags_stable SampleRuns.registered SampleRuns.flushed
              "shopify" Hrun) as [Hkept _].
  by apply Hkept.
Defined.

Lemma subscriptions_kept_witness :
  rtc step SampleRuns.subscribed SampleRuns.flushed
  ∧ JsMap.keys (callbacks_of "page_viewed" SampleRuns.subscribed)
    `prefix_of` JsMap.keys (callbacks_of "page_viewed" SampleRuns.flushed).
Proof.
  destruct sample_run_steps as (_ & Hp & Hr).
  assert (rtc step SampleRuns.subscribed SampleRuns.flushed) as Hrun.
  { eapply rtc_l; [exact Hp |]. by apply rtc_once. }
  split; [done |].
  by apply (subscriptions_kept SampleRuns.subscribed SampleRuns.flushed).
Defined.

Lemma late_registration_closes_gate_witness :
  registers Sample.open !! "hasOwnProperty" = None
  ∧ "ga" ≠ "__proto__"
  ∧ registers Sample.open !! "ga" = None
  ∧ areRegistersReady_of (registers Sample.open) = true
  ∧ areRegistersReady_of (registers (exec (register "ga") Sample.open))
    = false
  ∧ waitForReadyQueue
      (exec (publish "page_viewed" "/home")
         (exec (register "ga") Sample.open))
    = [("page_viewed", "/home")]
  ∧ trace (exec (publish "page_viewed" "/home")
             (exec (register "ga") Sample.open)) = [].
Proof.
  assert ("ga" ≠ "__proto__") as Hname by discriminate.
  split_and!; [reflexivity | done | reflexivity | reflexivity | | |];
    destruct (late_registration_closes_gate Sample.open "ga"
                "page_viewed" "/home" eq_refl Hname eq_refl)
      as (_ & _ & Hclosed & Htrace & Hqueue).
  - exact Hclosed.
  - exact Hqueue.
  - exact Htrace.
Defined.

Lemma ready_waits_for_the_others_witness :
  "ga" ≠ "shopify"
  ∧ registers SampleRuns.two_waiting !! "ga" = Some false
  ∧ trace (exec (ready_of "shopify")
             (exec (publish "page_viewed" "/home") SampleRuns.two_waiting))
    = []
  ∧ areRegistersReady_of
      (registers
         (exec (ready_of "shopify")
            (exec (publish "page_viewed" "/home") SampleRuns.two_waiting)))
    = false.
Proof.
  assert ("ga" ≠ "shopify") as Hne by discriminate.
  split_and!; [done | reflexivity | |];
    destruct (ready_waits_for_the_others
                (exec (publish "page_viewed" "/home") SampleRuns.two_waiting)
                "shopify" "ga" Hne eq_refl) as (Hrun & _ & Hclosed).
  - unfold exec at 1. by rewrite Hrun.
  - exact Hclosed.
Defined.

Lemma subscribe_then_publish_witness :
  areRegistersReady_of (registers (@initial_world string)) = true
  ∧ Invoked Sample.tracker "/home"
    ∈ trace (exec (publish "page_viewed" "/home")
               (exec (subscribe "page_viewed" Sample.tracker) initial_world)).
Proof.
  split; [reflexivity |].
  by destruct (subscribe_then_publish initial_world "page_viewed"
                 Sample.tracker "/home" eq_refl) as (_ & _ & _ & Hcalled).
Defined.

Lemma late_subscriber_receives_pending_witness :
  last_not_ready "shopify" Sample.waiting
  ∧ Invoked Sample.tracker "sku-1"
    ∈ trace (exec (ready_of "shopify")
               (exec (subscribe "product_viewed" Sample.tracker)
                  (exec (publish "product_viewed" "sku-1") Sample.waiting))).
Proof.
  assert (last_not_ready "shopify" Sample.waiting) as Hlast.
  { apply last_not_ready_singleton. reflexivity. }
  split; [done |].
  by destruct (late_subscriber_receives_pending Sample.waiting "shopify"
                 "product_viewed" "sku-1" Sample.tracker Hlast)
    as (_ & Hcalled & _).
Defined.

Lemma publish_without_subscribers_witness :
  areRegistersReady_of (registers Sample.open) = true
  ∧ subscribers_of "product_viewed" Sample.open = []
  ∧ publish "product_viewed" "sku-1" Sample.open = (Normal tt, Sample.open).
Proof.
  split_and!; [reflexivity | reflexivity |].
  apply (publish_without_subscribers Sample.open "product_viewed" "sku-1");
    reflexivity.
Defined.

Lemma publish_subscribe_commute_witness :
  ("cart_updated" ≠ "page_viewed"
   ∨ areRegistersReady_of (registers Sample.open) = false)
  ∧ exec (publish "page_viewed" "/home")
      (exec (subscribe "cart_updated" Sample.tracker) Sample.open)
    = exec (subscribe "cart_updated" Sample.tracker)
        (exec (publish "page_viewed" "/home") Sample.open).
Proof.
  assert ("cart_updated" ≠ "page_viewed"
          ∨ areRegistersReady_of (registers Sample.open) = false) as Hapart.
  { left. discriminate. }
  split; [done |].
  apply (publish_subscribe_commute Sample.open "cart_updated" "page_viewed"
           Sample.tracker "/home" Hapart).
Defined.

Lemma publish_without_errors_witness :
  areRegistersReady_of (registers Sample.open) = true
  ∧ (∀ callback, callback ∈ subscribers_of "cart_updated" Sample.open →
                 cb_call callback "cart-1" = Returns)
  ∧ publish "cart_updated" "cart-1" Sample.open
    = (Normal tt,
       append_trace [Invoked Sample.cart_logger "cart-1"] Sample.open).
Proof.
  assert (∀ callback, callback ∈ subscribers_of "cart_updated" Sample.open →
                      cb_call callback "cart-1" = Returns) as Hquiet.
  { intros callback Hin. apply list_elem_of_singleton in Hin. by subst. }
  split_and!; [reflexivity | done |].
  apply (publish_without_errors Sample.open "cart_updated" "cart-1" eq_refl
           Hquiet).
Defined.

Lemma pending_leaves_only_by_flush_witness :
  step SampleRuns.queued SampleRuns.flushed
  ∧ JsMap.get "page_viewed" (waitForReadyQueue SampleRuns.queued)
    = Some "/a"
  ∧ Invoked Sample.tracker "/a" ∈ trace SampleRuns.flushed.
Proof.
  destruct sample_run_steps as (_ & _ & Hr).
  split_and!; [done | reflexivity |].
  destruct (pending_leaves_only_by_flush SampleRuns.queued SampleRuns.flushed
              "page_viewed" "/a" Hr eq_refl)
    as [Hstill|[(payload' & _ & _ & Hover)|(_ & _ & Hcalled)]].
  - vm_compute in Hstill. discriminate Hstill.
  - vm_compute in Hover. discriminate Hover.
  - apply Hcalled. apply list_elem_of_here.
Defined.

Lemma only_published_payloads_are_delivered_witness :
  Invoked Sample.tracker "/a" ∈ trace (run SampleRuns.script)
  ∧ ∃ event, Publish event "/a" ∈ SampleRuns.script
             ∧ Subscribe event Sample.tracker ∈ SampleRuns.script.
Proof.
  assert (Invoked Sample.tracker "/a" ∈ trace (run SampleRuns.script))
    as Hcalled.
  { apply list_elem_of_here. }
  split; [done |].
  by apply (only_published_payloads_are_delivered SampleRuns.script).
Defined.

Lemma pending_was_published_witness :
  ("page_viewed", "/a")
  ∈ waitForReadyQueue
      (run [Register "shopify"; Publish "page_viewed" "/a"])
  ∧ Publish "page_viewed" "/a"
    ∈ [Register (Payload := string) "shopify"; Publish "page_viewed" "/a"].
Proof.
  assert (("page_viewed", "/a")
          ∈ waitForReadyQueue
              (run [Register "shopify"; Publish "page_viewed" "/a"]))
    as Hpending.
  { apply list_elem_of_here. }
  split; [done |].
  by apply (pending_was_published
              [Register "shopify"; Publish "page_viewed" "/a"]).
Defined.

Lemma outside_provider_nothing_happens_witness :
  useAnalyticsProvider [] = Normal (@defaultAnalyticsContext string unit unit)
  ∧ exec (ctx_publish (@defaultAnalyticsContext string unit unit)
            "page_viewed" "/home")
      (exec (ctx_subscribe (@defaultAnalyticsContext string unit unit)
               "page_viewed" Sample.tracker) Sample.open)
    = Sample.open.
Proof.
  split; [reflexivity |].
  destruct (outside_provider_nothing_happens
              (@defaultAnalyticsContext string unit unit) eq_refl)
    as (_ & _ & _ & _ & Hnothing).
  apply Hnothing.
Defined.

Lemma providers_share_the_dispatcher_witness :
  areRegistersReady_of (registers Sample.open) = true
  ∧ registers Sample.open !! "hasOwnProperty" = None
  ∧ "ga" ≠ "__proto__"
  ∧ registers Sample.open !! "ga" = None
  ∧ Invoked Sample.tracker "sku-1"
    ∈ trace (exec (publish "product_viewed" "sku-1")
               (exec (subscribe "product_viewed" Sample.tracker)
                  Sample.open))
  ∧ waitForReadyQueue
      (exec (publish "product_viewed" "sku-1")
         (exec (register "ga") Sample.open))
    = [("product_viewed", "sku-1")].
Proof.
  assert ("ga" ≠ "__proto__") as Hname by discriminate.
  split_and!; [reflexivity | reflexivity | done | reflexivity | |];
    destruct (providers_share_the_dispatcher
                (Payload := string) (Cart := unit) (Shop := unit)
                _ _ (λ _, true) None None ∅ None []
                (λ _, false) (Some tt) None ∅ (Some tt) []
                Sample.open "product_viewed" Sample.tracker "sku-1" "ga"
                eq_refl eq_refl) as [Hcalled Hclosed].
  - by apply Hcalled.
  - simpl in Hclosed. by rewrite (Hclosed eq_refl Hname eq_refl).
Defined.

Lemma override_is_permanent_witness :
  (∀ prop,
     Rendered prop
     ∈ [ConsentSignal false; Rendered (Some (λ _, false)); ConsentSignal true]
     → is_Some prop)
  ∧ canTrackState
      (provider_life (Some (λ _, true))
         [ConsentSignal false; Rendered (Some (λ _, false));
          ConsentSignal true])
    = CustomTrack (λ _, true).
Proof.
  assert (∀ prop,
            Rendered prop
            ∈ [ConsentSignal false; Rendered (Some (λ _, false));
               ConsentSignal true]
            → is_Some prop) as Hprops.
  { intros prop Hin.
    apply elem_of_cons in Hin as [Hin|Hin]; [discriminate |].
    apply elem_of_cons in Hin as [Hin|Hin]; [injection Hin as ->; by eexists |].
    apply list_elem_of_singleton in Hin. discriminate. }
  split; [done |].
  by rewrite (override_is_permanent (λ _, true) _ Hprops).
Defined.
